(** * Cells Sync: the patch store ([endpoint/patch-store.go])

    A shallow embedding of [PatchStore] (persist, Load, pruning) over a
    functional model of the bbolt buckets it reads and writes.

    Conventions.
    - Go [string] and [[]byte] are [String.string]: sequences of 8-bit
      characters, compared bytewise.
    - Go [int] is 64 bits wide; [uint64] is the bucket sequence type.  Both are
      [Z] with the wrap-around written out ([wrap_int], [wrap_uint64]).
    - A Go value of interface type that may be [nil] is an [option].
    - A run-time panic (nil dereference, failed type assertion) is the
      [Panic] outcome.
    - Packages outside this repository ([encoding/json], [fmt], [time],
      [sort], [merger]) are modelled in [Merger] and [Lib]. *)

From Stdlib Require Import ZArith List String Ascii Bool Lia DecimalString.
From Stdlib Require Import Permutation Sorting.Sorted.

#[local] Set Warnings "-register-all".

Import ListNotations.

Open Scope string_scope.
Open Scope Z_scope.

(** ** Go run-time outcomes *)

Module Go.

Inductive outcome (A : Type) : Type :=
| Ret (a : A)
| Panic.
Arguments Ret {A} a.
Arguments Panic {A}.

Definition bind {A B} (m : outcome A) (f : A -> outcome B) : outcome B :=
  match m with
  | Ret a => f a
  | Panic => Panic
  end.

(** The built-in [error] interface, seen through [Error()]. *)
Definition error := string.

(** [int]: 64-bit two's complement. *)
Definition MaxInt : Z := 2 ^ 63 - 1.
Definition MinInt : Z := - 2 ^ 63.
Definition wrap_int (z : Z) : Z := (z + 2 ^ 63) mod 2 ^ 64 - 2 ^ 63.
Definition is_int (z : Z) : Prop := MinInt <= z <= MaxInt.

(** [uint64]. *)
Definition wrap_uint64 (z : Z) : Z := z mod 2 ^ 64.

End Go.
Export Go.

Declare Scope go_scope.
Notation "x <- m ;; k" := (Go.bind m (fun x => k))
  (at level 61, m at next level, right associativity) : go_scope.
Notation "' p <- m ;; k" := (Go.bind m (fun p => k))
  (at level 61, p pattern, m at next level, right associativity) : go_scope.
Open Scope go_scope.

(** ** bbolt buckets

    A bucket is a B+tree from keys to either a value or a nested bucket, with
    a [uint64] sequence.  The entries are kept in ascending bytewise key order,
    which is the order a cursor visits them in. *)

Module Bolt.

Inductive Bucket : Type :=
| MkBucket (entries : list (string * Entry)) (sequence : Z)
with Entry : Type :=
| Value (v : string)
| Nested (b : Bucket).

Definition entries (b : Bucket) : list (string * Entry) :=
  match b with MkBucket es _ => es end.
Definition sequence (b : Bucket) : Z :=
  match b with MkBucket _ s => s end.

Definition empty : Bucket := MkBucket [] 0.

Definition ErrBucketNotFound     : error := "bucket not found".
Definition ErrBucketExists       : error := "bucket already exists".
Definition ErrBucketNameRequired : error := "bucket name required".
Definition ErrKeyRequired        : error := "key required".
Definition ErrIncompatibleValue  : error := "incompatible value".

Fixpoint lookup (k : string) (es : list (string * Entry)) : option Entry :=
  match es with
  | [] => None
  | (k', e) :: es' => if String.eqb k k' then Some e else lookup k es'
  end.

(** Insertion at the key's place in the order, replacing an equal key. *)
Fixpoint insert (k : string) (e : Entry) (es : list (string * Entry))
  : list (string * Entry) :=
  match es with
  | [] => [(k, e)]
  | (k', e') :: es' =>
      match String.compare k k' with
      | Lt => (k, e) :: es
      | Eq => (k, e) :: es'
      | Gt => (k', e') :: insert k e es'
      end
  end.

Fixpoint remove (k : string) (es : list (string * Entry))
  : list (string * Entry) :=
  match es with
  | [] => []
  | (k', e') :: es' =>
      if String.eqb k k' then remove k es' else (k', e') :: remove k es'
  end.

(** [Bucket.Get]: the value of a key; [nil] when the key is absent or names a
    nested bucket. *)
Definition Get (b : Bucket) (k : string) : option string :=
  match lookup k (entries b) with
  | Some (Value v) => Some v
  | _ => None
  end.

(** [Bucket.Bucket]: a nested bucket by name; [nil] when there is none. *)
Definition GetBucket (b : Bucket) (k : string) : option Bucket :=
  match lookup k (entries b) with
  | Some (Nested c) => Some c
  | _ => None
  end.

(** [Bucket.Put]. *)
Definition Put (b : Bucket) (k v : string) : Bucket * option error :=
  if String.eqb k "" then (b, Some ErrKeyRequired)
  else match lookup k (entries b) with
       | Some (Nested _) => (b, Some ErrIncompatibleValue)
       | _ => (MkBucket (insert k (Value v) (entries b)) (sequence b), None)
       end.

(** Go's nested bucket handles alias the parent's storage: a write through
    the handle is a write into the parent.  Here the child is written back. *)
Definition store (b : Bucket) (k : string) (c : Bucket) : Bucket :=
  MkBucket (insert k (Nested c) (entries b)) (sequence b).

(** [Bucket.CreateBucket]: the parent afterwards and the new bucket, or the
    error. *)
Definition CreateBucket (b : Bucket) (k : string)
  : (Bucket * Bucket) + error :=
  if String.eqb k "" then inr ErrBucketNameRequired
  else match lookup k (entries b) with
       | Some (Nested _) => inr ErrBucketExists
       | Some (Value _) => inr ErrIncompatibleValue
       | None => inl (store b k empty, empty)
       end.

(** [Bucket.CreateBucketIfNotExists]. *)
Definition CreateBucketIfNotExists (b : Bucket) (k : string)
  : (Bucket * Bucket) + error :=
  if String.eqb k "" then inr ErrBucketNameRequired
  else match lookup k (entries b) with
       | Some (Nested c) => inl (b, c)
       | Some (Value _) => inr ErrIncompatibleValue
       | None => inl (store b k empty, empty)
       end.

(** [Bucket.DeleteBucket]. *)
Definition DeleteBucket (b : Bucket) (k : string) : Bucket * option error :=
  match lookup k (entries b) with
  | Some (Nested _) => (MkBucket (remove k (entries b)) (sequence b), None)
  | Some (Value _) => (b, Some ErrIncompatibleValue)
  | None => (b, Some ErrBucketNotFound)
  end.

(** [Bucket.NextSequence]. *)
Definition NextSequence (b : Bucket) : Bucket * Z :=
  let id := wrap_uint64 (sequence b + 1) in
  (MkBucket (entries b) id, id).

(** What a cursor yields from [First] through [Next]: the keys in order, each
    with its value, [nil] for a nested bucket. *)
Definition cursor (b : Bucket) : list (string * option string) :=
  map (fun '(k, e) => (k, match e with Value v => Some v | Nested _ => None end))
      (entries b).

(** An open database is its root bucket.  [Tx.Bucket], [Tx.CreateBucket...]
    act on the root. *)
Definition DB := Bucket.

(** [DB.View]: the function's error is View's. *)
Definition View {A} (db : DB) (fn : Bucket -> outcome (A * option error))
  : outcome (A * option error) := fn db.

(** [DB.Update]: commit when the function returns [nil], roll back and return
    the error otherwise. *)
Definition Update (db : DB) (fn : Bucket -> outcome (Bucket * option error))
  : outcome (DB * option error) :=
  '(root, err) <- fn db ;;
  match err with
  | None => Ret (root, None)
  | Some e => Ret (db, Some e)
  end.

End Bolt.

(** ** The merger package: operations and patches *)

Module Merger.

(** Modelled from the spec: [merger.OperationType], declared outside this
    repository; the spec's data model lists these kinds. *)
Inductive OperationType : Type :=
| OpCreate | OpUpdate | OpDelete | OpMove | OpConflict.

Definition OperationType_eqb (a b : OperationType) : bool :=
  match a, b with
  | OpCreate, OpCreate | OpUpdate, OpUpdate | OpDelete, OpDelete
  | OpMove, OpMove | OpConflict, OpConflict => true
  | _, _ => false
  end.

(** Modelled from the spec: [merger.Operation].  A node is opaque here (its
    path).  [PatchOperation] is what [NewOpForUnmarshall] holds once decoded;
    [ConflictOperation] is what [NewConflictOperation] builds; its two sides
    are interface values and may be [nil]. *)
Inductive Operation : Type :=
| PatchOperation (opType : OperationType) (node : string)
| ConflictOperation (node : string) (cType : Z)
                    (leftOp rightOp : option Operation).

Definition Type_ (op : Operation) : OperationType :=
  match op with
  | PatchOperation t _ => t
  | ConflictOperation _ _ _ _ => OpConflict
  end.

Definition GetNode (op : Operation) : string :=
  match op with
  | PatchOperation _ n => n
  | ConflictOperation n _ _ _ => n
  end.

Definition NewConflictOperation (n : string) (cType : Z)
  (leftOp rightOp : option Operation) : Operation :=
  ConflictOperation n cType leftOp rightOp.

(** Modelled from the spec: [model.Endpoint], with its identity string and
    the two role capabilities a type assertion tests. *)
Record Endpoint : Type := MkEndpoint {
  URI : string;
  PathSyncSource : bool;
  PathSyncTarget : bool
}.

(** [e.(model.PathSyncSource)] and [e.(model.PathSyncTarget)]. *)
Definition assertSource (e : Endpoint) : outcome Endpoint :=
  if PathSyncSource e then Ret e else Panic.
Definition assertTarget (e : Endpoint) : outcome Endpoint :=
  if PathSyncTarget e then Ret e else Panic.

(** Modelled from the spec: [merger.Patch], through the methods the store
    calls.  [operations] holds every [Enqueue]d interface value in order;
    [errs] is the list [HasErrors] returns. *)
Record Patch : Type := MkPatch {
  GetUUID : string;
  Source : Endpoint;
  Target : Endpoint;
  GetStamp : Z;
  operations : list (option Operation);
  errs : list error
}.

(** Modelled from the spec: [merger.NewPatch] is outside this repository; the
    stamp of a fresh patch is the time of its construction, the current time
    the spec has an unreadable stamp default to. *)
Definition NewPatch (source target : Endpoint) (now : Z) : Patch :=
  MkPatch "" source target now [] [].

Definition SetUUID (u : string) (p : Patch) : Patch :=
  MkPatch u (Source p) (Target p) (GetStamp p) (operations p) (errs p).
Definition SetSource (s : Endpoint) (p : Patch) : Patch :=
  MkPatch (GetUUID p) s (Target p) (GetStamp p) (operations p) (errs p).
Definition SetTarget (t : Endpoint) (p : Patch) : Patch :=
  MkPatch (GetUUID p) (Source p) t (GetStamp p) (operations p) (errs p).
Definition Stamp (t : Z) (p : Patch) : Patch :=
  MkPatch (GetUUID p) (Source p) (Target p) t (operations p) (errs p).
(** Modelled from the spec: [SetPatchError] attaches the terminal error; by
    the comment in [Load] it also overwrites the internal modification time. *)
Definition SetPatchError (e : error) (now : Z) (p : Patch) : Patch :=
  MkPatch (GetUUID p) (Source p) (Target p) now (operations p) [e].
Definition Enqueue (op : option Operation) (p : Patch) : Patch :=
  MkPatch (GetUUID p) (Source p) (Target p) (GetStamp p)
          (operations p ++ [op]) (errs p).

Definition HasErrors (p : Patch) : list error * bool :=
  (errs p, match errs p with [] => false | _ => true end).
Definition Size (p : Patch) : Z := Z.of_nat (List.length (operations p)).

(** [time.Time.After] on instants. *)
Definition After (t u : Z) : bool := u <? t.

End Merger.
Export Merger.

(** ** Packages of the Go distribution *)

Module Lib.

(** What [encoding/json] decodes into an [interface{}].  Numbers are the
    integral ones: [unmarshalConflict] converts the only number it reads to
    [int]. *)
Inductive json : Type :=
| JNull
| JBool (b : bool)
| JNumber (n : Z)
| JString (s : string)
| JArray (l : list json)
| JObject (m : list (string * json)).

(** [m[key]] with the comma-ok form. *)
Fixpoint index (key : string) (m : list (string * json)) : option json :=
  match m with
  | [] => None
  | (k, v) :: m' => if String.eqb key k then Some v else index key m'
  end.

(** The codecs the store calls: [encoding/json] on generic values,
    the operation's own JSON methods (merger), [time.Time]'s JSON methods.
    [inl] is a result, [inr] the error. *)
Class Codec : Type := {
  (* json.Unmarshal(data, &ii), ii a map[string]interface{} *)
  json_Unmarshal_map : string -> list (string * json) + error;
  (* json.Marshal of a decoded value; it cannot fail *)
  json_Marshal : json -> string;
  (* operation := merger.NewOpForUnmarshall(); json.Unmarshal(v, &operation) *)
  op_Unmarshal : string -> option Operation + error;
  (* json.Marshal(operation) *)
  op_Marshal : option Operation -> string + error;
  (* t.MarshalJSON() *)
  time_MarshalJSON : Z -> string + error;
  (* t.UnmarshalJSON(data), from the receiver's value before the call *)
  time_UnmarshalJSON : Z -> string -> Z + error
}.

(** [sort.Sort], on the elements rather than on indexes. *)
Definition strict_weak {A} (less : A -> A -> bool) : Prop :=
  (forall a b, less a b = true -> less b a = false) /\
  (forall a b c, less b a = false -> less c b = false -> less c a = false).

Class Sorter : Type := {
  sort_Sort : forall {A : Type}, (A -> A -> bool) -> list A -> list A;
  sort_Sort_perm : forall A (less : A -> A -> bool) l,
      Permutation l (sort_Sort less l);
  sort_Sort_sorted : forall A (less : A -> A -> bool) l,
      strict_weak less ->
      StronglySorted (fun a b => less b a = false) (sort_Sort less l)
}.

(** [fmt.Errorf(format)] with no operands, from the documentation of [fmt]:
    [%%] prints a percent sign, any other verb prints [%!c(MISSING)], a
    percent sign at the end [%!(NOVERB)].  Flags, width and precision are
    consumed.  Explicit operand indexes, [*] and verbs outside ASCII are not
    modelled. *)
Inductive fmt_state : Type := Text | Flags | Width | Prec.

Definition is_digit (c : ascii) : bool :=
  let n := N_of_ascii c in (48 <=? n)%N && (n <=? 57)%N.
Definition is_flag (c : ascii) : bool :=
  existsb (Ascii.eqb c) ["#"; "0"; "+"; "-"; " "]%char.

Definition verb (c : ascii) (rest : string) : string :=
  if Ascii.eqb c "%" then String "%" rest
  else "%!" ++ String c "(MISSING)" ++ rest.

Fixpoint doPrintf (st : fmt_state) (format : string) : string :=
  match format with
  | EmptyString =>
      match st with Text => "" | _ => "%!(NOVERB)" end
  | String c rest =>
      match st with
      | Text =>
          if Ascii.eqb c "%" then doPrintf Flags rest
          else String c (doPrintf Text rest)
      | Flags =>
          if is_flag c then doPrintf Flags rest
          else if is_digit c then doPrintf Width rest
          else if Ascii.eqb c "." then doPrintf Prec rest
          else verb c (doPrintf Text rest)
      | Width =>
          if is_digit c then doPrintf Width rest
          else if Ascii.eqb c "." then doPrintf Prec rest
          else verb c (doPrintf Text rest)
      | Prec =>
          if is_digit c then doPrintf Prec rest
          else verb c (doPrintf Text rest)
      end
  end.

Definition fmt_Errorf (format : string) : error := doPrintf Text format.

(** [binary.BigEndian.PutUint64] into eight bytes. *)
Definition byte_at (v : Z) (i : Z) : ascii :=
  ascii_of_N (Z.to_N (Z.land (Z.shiftr v (8 * i)) 255)).

End Lib.
Export Lib.

(** ** The patch store *)

Module PatchStore.
Import Bolt.

Definition patchBucket    : string := "patches".
Definition timeKey        : string := "stamp".
Definition opsKey         : string := "operations".
Definition patchErrKey    : string := "patchError".
Definition patchSourceKey : string := "source".

(** [itob]: the 8-byte big endian representation of [v]. *)
Definition itob (v : Z) : string :=
  string_of_list_ascii (map (byte_at v) [7; 6; 5; 4; 3; 2; 1; 0]).

(** [patchSorter.Less]. *)
Definition Less (a b : Patch) : bool := After (GetStamp a) (GetStamp b).

(** The store's state: the configured endpoints, the open database and the
    flag.  The channels are the worker's input, see [worker]. *)
Record PatchStore : Type := MkPatchStore {
  source : Endpoint;
  target : Endpoint;
  db : DB;
  lastHasErrors : bool
}.

Definition with_db (p : PatchStore) (d : DB) : PatchStore :=
  MkPatchStore (source p) (target p) d (lastHasErrors p).

Section Store.
Context {codec : Codec} {sorter : Sorter}.

(** *** unmarshalConflict *)

Definition unmarshalConflict (data : string) (op : option Operation)
  : outcome (option Operation + error) :=
  match op with
  | None => Panic (* op.Type() on a nil interface *)
  | Some o =>
      if negb (OperationType_eqb (Type_ o) OpConflict) then Ret (inl (Some o))
      else
        let n := GetNode o in
        match json_Unmarshal_map data with
        | inr err => Ret (inr err)
        | inl ii =>
            match index "ConflictType" ii with
            | None =>
                Ret (inr "unmarshalling conflict: missing key ConflictType")
            | Some (JNumber cType) =>
                match index "LeftOp" ii with
                | None =>
                    Ret (inr "unmarshalling conflict: missing key LeftOp")
                | Some left' =>
                    match op_Unmarshal (json_Marshal left') with
                    | inr e => Ret (inr e)
                    | inl leftOp =>
                        match index "RightOp" ii with
                        | None =>
                            Ret (inr "unmarshalling conflict: missing key RightOp")
                        | Some right' =>
                            match op_Unmarshal (json_Marshal right') with
                            | inr e => Ret (inr e)
                            | inl rightOp =>
                                (* replace op now *)
                                Ret (inl (Some (NewConflictOperation
                                                  n cType leftOp rightOp)))
                            end
                        end
                    end
                end
            | Some _ => Panic (* t.(float64) *)
            end
        end
  end.

(** *** Load *)

(** The loop over the operation records of one patch, the patch and the log
    threaded through.  The cursor loop ends at the first [nil] value. *)
Fixpoint loadOperations (oc : list (string * option string))
  (patch : Patch) (log : list string) : outcome (Patch * list string) :=
  match oc with
  | [] => Ret (patch, log)
  | (_, None) :: _ => Ret (patch, log)
  | (_, Some v) :: oc' =>
      match op_Unmarshal v with
      | inl operation =>
          r <- unmarshalConflict v operation ;;
          match r with
          | inl operation =>
              loadOperations oc' (Enqueue operation patch) log
          | inr err =>
              (* operation is nil here, and is enqueued all the same *)
              loadOperations oc' (Enqueue None patch)
                (log ++ [("Cannot unmarshall conflict operation:" ++ err)%string])%list
          end
      | inr err =>
          loadOperations oc' patch
            (log ++ [("Cannot unmarshall operation:" ++ err)%string])%list
      end
  end.

(** The body of the loop over the patch buckets, for the key [k], with the
    lines it logs.  [now] is what [time.Now()] reads during the load. *)
Definition loadPatch (p : PatchStore) (now : Z) (bucket : Bucket) (k : string)
  : outcome (Patch * list string) :=
  s <- assertSource (source p) ;;
  t <- assertTarget (target p) ;;
  let patch := NewPatch s t now in
  (* Set the UUID of the patch *)
  let patch := SetUUID k patch in
  match GetBucket bucket k with
  | None => Panic (* patchBucket.Get on a nil bucket *)
  | Some patchBucket =>
      let patch :=
        match Get patchBucket patchErrKey with
        | Some errValue => SetPatchError (fmt_Errorf errValue) now patch
        | None => patch
        end in
      patch <-
        match Get patchBucket patchSourceKey with
        | Some src =>
            if negb (String.eqb src (URI (source p))) then
              (* Invert target and source *)
              s' <- assertSource (target p) ;;
              let patch := SetSource s' patch in
              t' <- assertTarget (source p) ;;
              Ret (SetTarget t' patch)
            else Ret patch
        | None => Ret patch
        end ;;
      let stamp := match Get patchBucket timeKey with
                   | Some b => b | None => "" end in
      let patch := match time_UnmarshalJSON now stamp with
                   | inl t => Stamp t patch
                   | inr _ => patch
                   end in
      match GetBucket patchBucket opsKey with
      | None => Panic (* opsBucket.Cursor() on a nil bucket *)
      | Some opsBucket => loadOperations (cursor opsBucket) patch []
      end
  end.

(** The loop over the keys of the top bucket, appending to [stamps]. *)
Fixpoint loadPatches (p : PatchStore) (now : Z) (bucket : Bucket)
  (c : list (string * option string)) (stamps : list Patch)
  (log : list string) : outcome (list Patch * list string) :=
  match c with
  | [] => Ret (stamps, log)
  | (k, _) :: c' =>
      '(patch, lines) <- loadPatch p now bucket k ;;
      loadPatches p now bucket c' (stamps ++ [patch])%list (log ++ lines)%list
  end.

(** The function [Load] runs in [db.View]; it always returns [nil]. *)
Definition loadView (p : PatchStore) (now : Z) (tx : Bucket)
  : outcome ((list Patch * list string) * option error) :=
  match GetBucket tx patchBucket with
  | None => Ret (([], []), None)
  | Some bucket =>
      r <- loadPatches p now bucket (cursor bucket) [] [] ;;
      Ret (r, None)
  end.

(** The page loop: [i] is the index of the head of [stamps]. *)
Fixpoint page (i offset limit : Z) (stamps patches : list Patch)
  : list Patch :=
  match stamps with
  | [] => patches
  | patch :: rest =>
      if i <? offset then page (i + 1) offset limit rest patches
      else
        let patches := (patches ++ [patch])%list in
        if i >=? wrap_int (wrap_int (offset + limit) - 1) then patches
        else page (i + 1) offset limit rest patches
  end.

(** The uuids to prune. *)
Definition pruneList (stamps : list Patch) : list string :=
  if 100 <? Z.of_nat (List.length stamps)
  then map GetUUID (skipn 100 stamps)
  else [].

(** What [Load] hands back: the page, the error, and besides them the uuids
    it leaves to the pruning goroutine and the lines it logged. *)
Record LoadResult : Type := MkLoadResult {
  patches : list Patch;
  e : option error;
  prunes : list string;
  logged : list string
}.

Definition Load (p : PatchStore) (now : Z) (offset limit : Z)
  : outcome LoadResult :=
  '((stamps, log), e) <- View (db p) (loadView p now) ;;
  match e with
  | Some _ => Ret (MkLoadResult [] e [] log)
  | None =>
      (* Order patches by timestamp *)
      let stamps := sort_Sort Less stamps in
      let prunes := pruneList stamps in
      let patches := page 0 offset limit stamps [] in
      Ret (MkLoadResult patches None prunes log)
  end.

(** The pruning goroutine's transaction, run on the database as it is when the
    goroutine gets to it. *)
Fixpoint deleteBuckets (bucket : Bucket) (prunes : list string)
  (log : list string) : Bucket * list string :=
  match prunes with
  | [] => (bucket, log)
  | uuid :: rest =>
      match DeleteBucket bucket uuid with
      | (bucket', Some e) =>
          deleteBuckets bucket' rest
            (log ++ [("cannot delete bucket " ++ uuid ++ " - " ++ e)%string])%list
      | (bucket', None) => deleteBuckets bucket' rest log
      end
  end.

Definition pruneUpdate (prunes : list string) (tx : Bucket)
  : outcome (Bucket * option error) :=
  match GetBucket tx patchBucket with
  | None => Ret (tx, None)
  | Some bucket =>
      let '(bucket', _) := deleteBuckets bucket prunes [] in
      Ret (store tx patchBucket bucket', None)
  end.

Definition prune (prunes : list string) (d : DB) : outcome DB :=
  match prunes with
  | [] => Ret d
  | _ => '(d', _) <- Update d (pruneUpdate prunes) ;; Ret d'
  end.

(** *** persist *)

(** The callback of [WalkOperations]: one operation into the operations
    bucket, which is [nil] when it could not be created. *)
Definition persistOperation (opsBucket : option Bucket)
  (operation : option Operation) : outcome (option Bucket) :=
  match op_Marshal operation with
  | inl data =>
      match opsBucket with
      | None => Panic (* opsBucket.NextSequence() on a nil bucket *)
      | Some b =>
          let '(b, id) := NextSequence b in
          Ret (Some (fst (Put b (itob id) data)))
      end
  | inr _ => Ret opsBucket
  end.

(** [patch.WalkOperations] with an empty filter: every operation, in order. *)
Fixpoint WalkOperations (ops : list (option Operation))
  (opsBucket : option Bucket) : outcome (option Bucket) :=
  match ops with
  | [] => Ret opsBucket
  | operation :: rest =>
      b <- persistOperation opsBucket operation ;;
      WalkOperations rest b
  end.

(** The same walk on a bucket that exists, where it cannot panic. *)
Fixpoint walk (ops : list (option Operation)) (b : Bucket) : Bucket :=
  match ops with
  | [] => b
  | operation :: rest =>
      match op_Marshal operation with
      | inl data =>
          let '(b, id) := NextSequence b in
          walk rest (fst (Put b (itob id) data))
      | inr _ => walk rest b
      end
  end.

(** The function [persist] runs in [db.Update]. *)
Definition persistUpdate (patch : Patch) (tx : Bucket)
  : outcome (Bucket * option error) :=
  match CreateBucketIfNotExists tx patchBucket with
  | inr err => Ret (tx, Some err)
  | inl (tx, bucket) =>
      (* Fully replace bucket content *)
      let bName := GetUUID patch in
      let bucket := match GetBucket bucket bName with
                    | Some _ => fst (DeleteBucket bucket bName)
                    | None => bucket
                    end in
      match CreateBucketIfNotExists bucket bName with
      | inr err => Ret (tx, Some err)
      | inl (bucket, patchBucket') =>
          let mTime := match time_MarshalJSON (GetStamp patch) with
                       | inl b => b | inr _ => "" end in
          let patchBucket' := fst (Put patchBucket' timeKey mTime) in
          let patchBucket' :=
            match HasErrors patch with
            | (errs, ok) =>
                match errs with
                | e0 :: _ =>
                    if ok then fst (Put patchBucket' patchErrKey e0)
                    else patchBucket'
                | [] => patchBucket'
                end
            end in
          let patchBucket' :=
            fst (Put patchBucket' patchSourceKey (URI (Source patch))) in
          let '(patchBucket', opsBucket) :=
            match CreateBucket patchBucket' opsKey with
            | inl (pb, ob) => (pb, Some ob)
            | inr _ => (patchBucket', None)
            end in
          opsBucket <- WalkOperations (operations patch) opsBucket ;;
          let patchBucket' :=
            match opsBucket with
            | Some ob => store patchBucket' opsKey ob
            | None => patchBucket'
            end in
          Ret (store tx patchBucket (store bucket bName patchBucket'), None)
      end
  end.

(** Whether [persist] returns before the transaction. *)
Definition skipped (p : PatchStore) (patch : Patch) : bool :=
  let has := snd (HasErrors patch) in
  (Size patch =? 0) && negb has && negb (lastHasErrors p).

(** [persist] has no result: what [db.Update] returns is dropped.  The
    second component here is that dropped error, kept for the statements
    about it; [persist] itself is the first component. *)
Definition persist_with_error (p : PatchStore) (patch : Patch)
  : outcome (PatchStore * option error) :=
  let has := snd (HasErrors patch) in
  (* Do not store empty/no-error patch, except if previous had error *)
  if skipped p patch then Ret (p, None)
  else
    let p := MkPatchStore (source p) (target p) (db p) has in
    '(d, err) <- Update (db p) (persistUpdate patch) ;;
    Ret (with_db p d, err).

Definition persist (p : PatchStore) (patch : Patch) : outcome PatchStore :=
  '(p', _) <- persist_with_error p patch ;; Ret p'.

(** The worker goroutine: [for patch := range p.patches { p.persist(patch) }]
    over the patches sent on the channel, in the order they were sent. *)
Fixpoint worker (p : PatchStore) (sent : list Patch) : outcome PatchStore :=
  match sent with
  | [] => Ret p
  | patch :: rest => p' <- persist p patch ;; worker p' rest
  end.

(** [Store] and [PublishPatch]: the patch is handed to the worker, and the
    caller gets nothing back (here [tt]) next to the store's new state. *)
Definition Store (p : PatchStore) (patch : Patch) : outcome (PatchStore * unit) :=
  p' <- worker p [patch] ;; Ret (p', tt).

Definition PublishPatch (p : PatchStore) (patch : Patch)
  : outcome (PatchStore * unit) :=
  p' <- worker p [patch] ;; Ret (p', tt).

(** [NewPatchStore] on an opened database: the flag is seeded from the most
    recent patch.  The state is the one at return; the pruning that this
    [Load] may have left to its goroutine is not part of it. *)
Definition NewPatchStore (d : DB) (source target : Endpoint) (now : Z)
  : outcome PatchStore :=
  let p := MkPatchStore source target d false in
  r <- Load p now 0 1 ;;
  match e r, patches r with
  | None, last :: _ =>
      Ret (MkPatchStore source target d (snd (HasErrors last)))
  | _, _ => Ret p
  end.

End Store.
End PatchStore.

(** ** Concrete libraries for the examples

    An insertion sort for [sort.Sort] and a small wire format for the codecs:
    an operation is a kind letter followed by its node, a time is its eight
    big endian bytes, and the generic decoder knows two conflict records. *)

Module Demo.
Import Bolt PatchStore.

Fixpoint insert_sorted {A} (less : A -> A -> bool) (x : A) (l : list A)
  : list A :=
  match l with
  | [] => [x]
  | y :: l' => if less y x then y :: insert_sorted less x l' else x :: l
  end.

Definition isort {A} (less : A -> A -> bool) (l : list A) : list A :=
  fold_right (insert_sorted less) [] l.

Lemma insert_sorted_perm {A} (less : A -> A -> bool) x l :
  Permutation (x :: l) (insert_sorted less x l).
Proof.
  induction l as [|y l IH]; simpl; [reflexivity|].
  destruct (less y x); [|reflexivity].
  rewrite perm_swap. now apply perm_skip.
Qed.

Lemma isort_perm {A} (less : A -> A -> bool) l :
  Permutation l (isort less l).
Proof.
  induction l as [|x l IH]; simpl; [constructor|].
  rewrite <- insert_sorted_perm. now apply perm_skip.
Qed.

Lemma insert_sorted_sorted {A} (less : A -> A -> bool) x l :
  strict_weak less ->
  StronglySorted (fun a b => less b a = false) l ->
  StronglySorted (fun a b => less b a = false) (insert_sorted less x l).
Proof.
  intros [Hasym Hneg] Hl.
  induction Hl as [|y l Hl IH Hy]; simpl.
  - repeat constructor.
  - destruct (less y x) eqn:Hyx.
    + constructor; [exact IH|].
      rewrite Forall_forall in *. intros z Hz.
      apply (Permutation_in _ (Permutation_sym (insert_sorted_perm less x l)))
        in Hz.
      destruct Hz as [<-|Hz]; [now apply Hasym|now apply Hy].
    + constructor; [now constructor|].
      constructor; [exact Hyx|].
      rewrite Forall_forall in *. intros z Hz.
      apply (Hneg x y z); [exact Hyx|now apply Hy].
Qed.

Lemma isort_sorted {A} (less : A -> A -> bool) l :
  strict_weak less ->
  StronglySorted (fun a b => less b a = false) (isort less l).
Proof.
  intros Hsw. induction l as [|x l IH]; simpl; [constructor|].
  now apply insert_sorted_sorted.
Qed.

#[export] Instance sorter : Sorter := {|
  sort_Sort := @isort;
  sort_Sort_perm := @isort_perm;
  sort_Sort_sorted := @isort_sorted
|}.

Definition kind_letter (t : OperationType) : ascii :=
  match t with
  | OpCreate => "C" | OpUpdate => "U" | OpDelete => "D"
  | OpMove => "M" | OpConflict => "X"
  end%char.

Definition letter_kind (c : ascii) : option OperationType :=
  if Ascii.eqb c "C" then Some OpCreate
  else if Ascii.eqb c "U" then Some OpUpdate
  else if Ascii.eqb c "D" then Some OpDelete
  else if Ascii.eqb c "M" then Some OpMove
  else if Ascii.eqb c "X" then Some OpConflict
  else None.

Definition op_decode (s : string) : option Operation + error :=
  if String.eqb s "null" then inl None
  else match s with
       | String c n =>
           match letter_kind c with
           | Some t => inl (Some (PatchOperation t n))
           | None => inr "invalid operation"
           end
       | EmptyString => inr "unexpected end of JSON input"
       end.

Definition op_encode (op : option Operation) : string + error :=
  match op with
  | None => inl "null"
  | Some o => inl (String (kind_letter (Type_ o)) (GetNode o))
  end.

(** The two conflict records the generic decoder reads: a complete one, and
    one whose [LeftOp] is missing. *)
Definition full_conflict : string := "X/both".
Definition conflict_without_left : string := "X/right-only".

Definition map_decode (s : string) : list (string * json) + error :=
  if String.eqb s full_conflict then
    inl [("ConflictType", JNumber 1); ("LeftOp", JString "U/both");
         ("RightOp", JString "D/both")]
  else if String.eqb s conflict_without_left then
    inl [("ConflictType", JNumber 1); ("RightOp", JString "D/right-only")]
  else inr "cannot unmarshal into Go value of type map[string]interface {}".

Definition json_encode (j : json) : string :=
  match j with
  | JString s => s
  | _ => "null"
  end.

Definition be_value (s : string) : Z :=
  fold_left (fun acc c => acc * 256 + Z.of_N (N_of_ascii c))
            (list_ascii_of_string s) 0.

Definition time_encode (t : Z) : string + error :=
  if (0 <=? t) && (t <? 2 ^ 64) then inl (itob t)
  else inr "Time.MarshalJSON: year outside of range [0,9999]".

Definition time_decode (receiver : Z) (s : string) : Z + error :=
  if String.eqb s "null" then inl receiver
  else if Nat.eqb (String.length s) 8 then inl (be_value s)
  else inr "Time.UnmarshalJSON: input is not a JSON string".

#[export] Instance codec : Codec := {|
  json_Unmarshal_map := map_decode;
  json_Marshal := json_encode;
  op_Unmarshal := op_decode;
  op_Marshal := op_encode;
  time_MarshalJSON := time_encode;
  time_UnmarshalJSON := time_decode
|}.

Definition local : Endpoint := MkEndpoint "fs:///home/user/docs" true true.
Definition remote : Endpoint := MkEndpoint "https://cells.example/ws" true true.

(** A store on an empty database. *)
Definition store0 : PatchStore := MkPatchStore local remote Bolt.empty false.

Definition op_a : option Operation := Some (PatchOperation OpCreate "/a").
Definition op_b : option Operation := Some (PatchOperation OpUpdate "/b").
Definition op_c : option Operation := Some (PatchOperation OpDelete "/c").

Definition patch_at (uuid : string) (stamp : Z)
  (ops : list (option Operation)) (errs : list error) : Patch :=
  MkPatch uuid local remote stamp ops errs.

(** The store's state after the worker has persisted the patches sent. *)
Definition after (p : PatchStore) (sent : list Patch) : PatchStore :=
  match worker p sent with
  | Ret p' => p'
  | Panic => p
  end.

(** A store opened as (local, remote) holding a patch that was persisted
    with the remote endpoint as its source. *)
Definition reversed : PatchStore :=
  after store0 [MkPatch "r1" remote local 10 [op_a] []].

(** A store holding a patch whose second operation record is tagged as a
    conflict and has no [LeftOp]. *)
Definition damaged : PatchStore :=
  after store0
    [patch_at "d1" 10
       [op_a; Some (PatchOperation OpConflict "/right-only"); op_c] []].

(** A store holding a patch whose stamp does not parse. *)
Definition unstamped : PatchStore :=
  after store0 [patch_at "t1" (-1) [op_a] []].

(** Four patches persisted one after the other; the second reports two
    errors, and the third, empty, is written because of them. *)
Definition four : PatchStore :=
  after store0
    [patch_at "u1" 10 [op_a; op_b; op_c] [];
     patch_at "u2" 20 [] ["cannot open a%20b"; "second"];
     patch_at "u3" 5 [] [];
     patch_at "u4" 7 [op_b] []].

End Demo.

(** * Properties *)

Import Bolt PatchStore.

(** ** Machine integers *)

Ltac int_bounds :=
  unfold is_int, MinInt, MaxInt in *;
  change (2 ^ 63) with 9223372036854775808 in *;
  change (2 ^ 64) with 18446744073709551616 in *;
  lia.

Lemma wrap_int_id z : is_int z -> wrap_int z = z.
Proof.
  unfold is_int, wrap_int, MinInt, MaxInt.
  change (2 ^ 63) with 9223372036854775808.
  change (2 ^ 64) with 18446744073709551616.
  intros H. rewrite Z.mod_small; lia.
Qed.

(** The bound the page loop compares the index with. *)
Definition page_bound (offset limit : Z) : Z :=
  wrap_int (wrap_int (offset + limit) - 1).

Lemma wrap_int_pred z : wrap_int (wrap_int z - 1) = wrap_int (z - 1).
Proof.
  unfold wrap_int.
  replace ((z + 2 ^ 63) mod 2 ^ 64 - 2 ^ 63 - 1 + 2 ^ 63)
    with ((z + 2 ^ 63) mod 2 ^ 64 - 1) by lia.
  rewrite Zminus_mod_idemp_l.
  replace (z + 2 ^ 63 - 1) with (z - 1 + 2 ^ 63) by lia.
  reflexivity.
Qed.

Lemma page_bound_exact offset limit :
  is_int (offset + limit - 1) ->
  page_bound offset limit = offset + limit - 1.
Proof.
  intros H. unfold page_bound. rewrite wrap_int_pred. now apply wrap_int_id.
Qed.

(** ** The page loop *)

Section Page.

Lemma page_acc i offset limit stamps acc :
  page i offset limit stamps acc
  = (acc ++ page i offset limit stamps [])%list.
Proof.
  revert i acc. induction stamps as [|x rest IH]; intros i acc; simpl.
  - now rewrite app_nil_r.
  - destruct (i <? offset); [apply IH|].
    destruct (i >=? wrap_int (wrap_int (offset + limit) - 1)); [reflexivity|].
    rewrite (IH (i + 1) (acc ++ [x])%list), (IH (i + 1) [x]).
    now rewrite app_assoc.
Qed.

(** Before the offset nothing is taken. *)
Lemma page_before i offset limit stamps acc :
  i + Z.of_nat (List.length stamps) <= offset ->
  page i offset limit stamps acc = acc.
Proof.
  revert i. induction stamps as [|x rest IH]; intros i H; simpl in *;
    [reflexivity|].
  destruct (Z.ltb_spec i offset); [|lia].
  apply IH. lia.
Qed.

(** From the offset on, the loop takes elements up to the bound's index, and
    one at least. *)
Lemma page_from i offset limit stamps :
  offset <= i ->
  page i offset limit stamps []
  = firstn (Z.to_nat (Z.max 0 (page_bound offset limit - i) + 1)) stamps.
Proof.
  unfold page_bound.
  revert i. induction stamps as [|x rest IH]; intros i H; simpl.
  - now rewrite firstn_nil.
  - destruct (Z.ltb_spec i offset); [lia|].
    set (w := wrap_int (wrap_int (offset + limit) - 1)) in *.
    destruct (Z.geb_spec i w).
    + replace (Z.max 0 (w - i) + 1) with 1 by lia. reflexivity.
    + rewrite page_acc, IH by lia.
      replace (Z.to_nat (Z.max 0 (w - i) + 1))
        with (S (Z.to_nat (Z.max 0 (w - (i + 1)) + 1))) by lia.
      reflexivity.
Qed.

Lemma page_slice i offset limit stamps :
  0 <= i <= offset ->
  page i offset limit stamps []
  = firstn (Z.to_nat (Z.max 0 (page_bound offset limit - offset) + 1))
           (skipn (Z.to_nat (offset - i)) stamps).
Proof.
  revert i. induction stamps as [|x rest IH]; intros i H.
  - simpl. now rewrite skipn_nil, firstn_nil.
  - destruct (Z.eq_dec i offset) as [->|Hne].
    + rewrite Z.sub_diag. simpl skipn. apply page_from. lia.
    + simpl page. destruct (Z.ltb_spec i offset); [|lia].
      rewrite IH by lia.
      replace (Z.to_nat (offset - i)) with (S (Z.to_nat (offset - (i + 1))))
        by lia.
      reflexivity.
Qed.

Lemma page_incl i offset limit stamps acc q :
  In q (page i offset limit stamps acc) -> In q acc \/ In q stamps.
Proof.
  revert i acc. induction stamps as [|x rest IH]; intros i acc; simpl.
  - auto.
  - destruct (i <? offset).
    + intros H. apply IH in H. tauto.
    + destruct (i >=? _).
      * rewrite in_app_iff. simpl. tauto.
      * intros H. apply IH in H. rewrite in_app_iff in H. simpl in H. tauto.
Qed.

End Page.

(** ** Load: sorting and paging *)

(** The patches at positions [offset] through [offset + limit - 1] of a list,
    fewer when the list ends earlier. *)
Definition slice (offset limit : Z) (l : list Patch) : list Patch :=
  firstn (Z.to_nat limit) (skipn (Z.to_nat offset) l).

(** Most recent first. *)
Definition descending (l : list Patch) : Prop :=
  StronglySorted (fun a b => GetStamp b <= GetStamp a) l.

Lemma Less_strict_weak : strict_weak Less.
Proof.
  unfold strict_weak, Less, After. split.
  - intros a b H. apply Z.ltb_lt in H. apply Z.ltb_ge. lia.
  - intros a b c H1 H2. apply Z.ltb_ge in H1, H2. apply Z.ltb_ge. lia.
Qed.

Section LoadFacts.
Context {codec : Codec} {sorter : Sorter}.

Lemma sort_descending stamps : descending (sort_Sort Less stamps).
Proof.
  unfold descending.
  pose proof (sort_Sort_sorted _ Less stamps Less_strict_weak) as H.
  induction H as [|a l Hl IH Ha]; constructor; [exact IH|].
  rewrite Forall_forall in *. intros b Hb.
  specialize (Ha b Hb). unfold Less, After in Ha.
  now apply Z.ltb_ge in Ha.
Qed.

Lemma loadView_no_error p now tx x err :
  loadView p now tx = Ret (x, err) -> err = None.
Proof.
  unfold loadView. destruct (GetBucket tx patchBucket).
  - destruct (loadPatches _ _ _ _ _ _); simpl; [|discriminate].
    now intros [= _ <-].
  - now intros [= _ <-].
Qed.

Lemma Load_of_view p now offset limit stamps log :
  loadView p now (db p) = Ret ((stamps, log), None) ->
  Load p now offset limit
  = Ret (MkLoadResult (page 0 offset limit (sort_Sort Less stamps) []) None
                      (pruneList (sort_Sort Less stamps)) log).
Proof.
  intros H. unfold Load, View. rewrite H. reflexivity.
Qed.

Lemma Load_inv p now offset limit r :
  Load p now offset limit = Ret r ->
  exists stamps log,
    loadView p now (db p) = Ret ((stamps, log), None) /\
    r = MkLoadResult (page 0 offset limit (sort_Sort Less stamps) []) None
                     (pruneList (sort_Sort Less stamps)) log.
Proof.
  unfold Load, View.
  destruct (loadView p now (db p)) as [[[stamps log] err]|] eqn:Hv;
    simpl; [|discriminate].
  pose proof (loadView_no_error _ _ _ _ _ Hv) as ->.
  intros [= <-]. now exists stamps, log.
Qed.

(** C3 (as amended).  On a store whose records load, [Load offset limit] with
    [offset >= 0], [limit >= 1] and [offset + limit - 1] within [int] sorts
    the whole stored set by stamp, most recent first, and returns exactly the
    patches at sorted positions [offset] through [offset + limit - 1] (fewer
    if the set ends earlier), with no error; and whenever [offset] is at least
    the stored patch count, whatever the limit, it returns an empty list and
    no error. *)
Theorem C3_Load_page p now offset limit stamps log :
  loadView p now (db p) = Ret ((stamps, log), None) ->
  is_int offset -> is_int limit ->
  0 <= offset -> 1 <= limit -> offset + limit - 1 <= MaxInt ->
  let sorted := sort_Sort Less stamps in
  Permutation stamps sorted /\
  descending sorted /\
  Load p now offset limit
  = Ret (MkLoadResult (slice offset limit sorted) None (pruneList sorted) log) /\
  (Z.of_nat (List.length stamps) <= offset ->
   forall limit', exists r,
     Load p now offset limit' = Ret r /\ patches r = [] /\ e r = None).
Proof.
  intros Hv Ho Hl H0 H1 Hsum sorted.
  split; [apply sort_Sort_perm|].
  split; [apply sort_descending|].
  split.
  - rewrite (Load_of_view _ _ _ _ _ _ Hv). fold sorted.
    rewrite page_slice by lia.
    rewrite page_bound_exact by int_bounds.
    unfold slice. rewrite Z.sub_0_r.
    replace (Z.max 0 (offset + limit - 1 - offset) + 1) with limit by lia.
    reflexivity.
  - intros Hlen limit'. eexists. split; [apply (Load_of_view _ _ _ _ _ _ Hv)|].
    simpl. split; [|reflexivity].
    apply page_before.
    rewrite <- (Permutation_length (sort_Sort_perm _ Less stamps)). lia.
Qed.

(** C9 (as amended).  On a store with at least [offset + 1] patches, for
    [offset >= 0] and [limit <= 0], other than [offset = 0] with the least
    [int] as limit, [Load offset limit] returns exactly one patch, the one at
    sorted position [offset]. *)
Theorem C9_Load_nonpositive_limit p now offset limit stamps log :
  loadView p now (db p) = Ret ((stamps, log), None) ->
  is_int offset -> is_int limit ->
  0 <= offset -> limit <= 0 ->
  offset < Z.of_nat (List.length stamps) ->
  ~ (offset = 0 /\ limit = MinInt) ->
  exists r q,
    Load p now offset limit = Ret r /\
    nth_error (sort_Sort Less stamps) (Z.to_nat offset) = Some q /\
    patches r = [q].
Proof.
  intros Hv Ho Hl H0 H1 Hlen Hcorner.
  set (sorted := sort_Sort Less stamps).
  assert (Hs : (Z.to_nat offset < List.length sorted)%nat).
  { unfold sorted.
    rewrite <- (Permutation_length (sort_Sort_perm _ Less stamps)). lia. }
  destruct (nth_error sorted (Z.to_nat offset)) as [q|] eqn:Hq;
    [|apply nth_error_None in Hq; lia].
  eexists. exists q. split; [apply (Load_of_view _ _ _ _ _ _ Hv)|].
  split; [reflexivity|]. simpl. fold sorted.
  rewrite page_slice by lia.
  rewrite page_bound_exact by int_bounds.
  replace (Z.max 0 (offset + limit - 1 - offset) + 1) with 1 by lia.
  rewrite Z.sub_0_r.
  apply nth_error_split in Hq. destruct Hq as (l1 & l2 & Heq & Hl1).
  rewrite Heq, <- Hl1, skipn_app, skipn_all, Nat.sub_diag. reflexivity.
Qed.

End LoadFacts.

Section PagingExamples.
Existing Instance Demo.codec.
Existing Instance Demo.sorter.

Lemma C3_Load_page_witness :
  exists stamps log,
    loadView Demo.four 1000 (db Demo.four) = Ret ((stamps, log), None) /\
    Load Demo.four 1000 1 2
    = Ret (MkLoadResult (slice 1 2 (sort_Sort Less stamps)) None
                        (pruneList (sort_Sort Less stamps)) log).
Proof.
  eexists. eexists. split; [vm_compute; reflexivity|].
  apply (C3_Load_page Demo.four 1000 1 2);
    [vm_compute; reflexivity|int_bounds..].
Defined.

(** C3 as stated fails where [offset + limit - 1] leaves [int]: with four
    stored patches, [Load 2 MaxInt] returns one patch, and the positions 2
    through the end of the sorted set hold two. *)
Lemma C3_counterexample :
  exists stamps log r,
    loadView Demo.four 1000 (db Demo.four) = Ret ((stamps, log), None) /\
    0 <= 2 /\ 1 <= MaxInt /\ is_int 2 /\ is_int MaxInt /\
    Load Demo.four 1000 2 MaxInt = Ret r /\
    List.length (patches r) = 1%nat /\
    List.length (slice 2 MaxInt (sort_Sort Less stamps)) = 2%nat.
Proof.
  eexists. eexists. eexists.
  split; [vm_compute; reflexivity|].
  do 4 (split; [int_bounds|]).
  split; [vm_compute; reflexivity|].
  split; [reflexivity|].
  unfold slice. rewrite firstn_all2.
  - vm_compute. reflexivity.
  - rewrite length_skipn.
    assert (H : (4 <= Z.to_nat MaxInt)%nat) by int_bounds.
    etransitivity; [|exact H]. vm_compute. repeat constructor.
Qed.

Lemma C9_Load_nonpositive_limit_witness :
  exists r q,
    Load Demo.four 1000 1 0 = Ret r /\
    nth_error (sort_Sort Less
                 (match loadView Demo.four 1000 (db Demo.four) with
                  | Ret ((stamps, _), _) => stamps
                  | Panic => []
                  end)) (Z.to_nat 1) = Some q /\
    patches r = [q].
Proof.
  refine (C9_Load_nonpositive_limit Demo.four 1000 1 0 _ [] _ _ _ _ _ _ _);
    [vm_compute; reflexivity|try int_bounds..].
  vm_compute. reflexivity.
Defined.

(** C9 as stated fails at [offset = 0] with the least [int] as limit: the
    bound wraps to the greatest [int], the loop never breaks, and with four
    stored patches [Load 0 MinInt] returns all four. *)
Lemma C9_counterexample :
  exists stamps log r,
    loadView Demo.four 1000 (db Demo.four) = Ret ((stamps, log), None) /\
    0 <= 0 /\ MinInt <= 0 /\ is_int MinInt /\
    0 + 1 <= Z.of_nat (List.length stamps) /\
    Load Demo.four 1000 0 MinInt = Ret r /\
    List.length (patches r) = 4%nat.
Proof.
  eexists. eexists. eexists.
  split; [vm_compute; reflexivity|].
  do 3 (split; [int_bounds|]).
  split; [vm_compute; discriminate|].
  split; [vm_compute; reflexivity|].
  reflexivity.
Qed.

End PagingExamples.

(** ** Buckets *)

Lemma compare_refl s : String.compare s s = Eq.
Proof.
  pose proof (String.compare_antisym s s) as H.
  destruct (String.compare s s); simpl in H; congruence.
Qed.

Lemma compare_neq k k' : String.compare k k' <> Eq -> String.eqb k k' = false.
Proof.
  intros H. apply String.eqb_neq. intros ->. apply H, compare_refl.
Qed.

Lemma lookup_insert k e es : lookup k (insert k e es) = Some e.
Proof.
  induction es as [|[k' e'] es IH]; simpl.
  - now rewrite String.eqb_refl.
  - destruct (String.compare k k') eqn:Hc; simpl.
    + now rewrite String.eqb_refl.
    + now rewrite String.eqb_refl.
    + rewrite compare_neq by congruence. exact IH.
Qed.

Lemma lookup_insert_other k k0 e es :
  k0 <> k -> lookup k0 (insert k e es) = lookup k0 es.
Proof.
  intros Hne. apply String.eqb_neq in Hne.
  induction es as [|[k' e'] es IH]; simpl.
  - now rewrite Hne.
  - destruct (String.compare k k') eqn:Hc; simpl.
    + apply String.compare_eq_iff in Hc. subst k'. now rewrite Hne.
    + now rewrite Hne.
    + destruct (String.eqb k0 k'); [reflexivity|exact IH].
Qed.

Lemma lookup_remove k es : lookup k (remove k es) = None.
Proof.
  induction es as [|[k' e'] es IH]; simpl; [reflexivity|].
  destruct (String.eqb k k') eqn:Hk; [exact IH|].
  simpl. now rewrite Hk.
Qed.

Lemma lookup_remove_other k k0 es :
  k0 <> k -> lookup k0 (remove k es) = lookup k0 es.
Proof.
  intros Hne.
  induction es as [|[k' e'] es IH]; simpl; [reflexivity|].
  destruct (String.eqb k k') eqn:Hk.
  - apply String.eqb_eq in Hk. subst k'.
    apply String.eqb_neq in Hne. now rewrite Hne.
  - simpl. destruct (String.eqb k0 k'); [reflexivity|exact IH].
Qed.

Lemma GetBucket_store b k c : GetBucket (store b k c) k = Some c.
Proof. unfold GetBucket, store. simpl. now rewrite lookup_insert. Qed.

Lemma lookup_store_other b k k0 c :
  k0 <> k -> lookup k0 (entries (store b k c)) = lookup k0 (entries b).
Proof. intros H. unfold store. simpl. now apply lookup_insert_other. Qed.

(** An insertion after every key of the list lands at its end. *)
Lemma insert_last k e es :
  Forall (fun kv => String.compare k (fst kv) = Gt) es ->
  insert k e es = (es ++ [(k, e)])%list.
Proof.
  induction 1 as [|[k' e'] es Hk _ IH]; simpl; [reflexivity|].
  simpl in Hk. rewrite Hk. now rewrite IH.
Qed.

(** ** persist *)

Section PersistFacts.
Context {codec : Codec}.

(** The bytes written under [stamp]. *)
Definition stamp_bytes (patch : Patch) : string :=
  match time_MarshalJSON (GetStamp patch) with
  | inl b => b
  | inr _ => ""
  end.

(** The record a committed [persist] leaves under the patch's uuid. *)
Definition record_of (patch : Patch) : Bucket :=
  let pb := fst (Put empty timeKey (stamp_bytes patch)) in
  let pb := match errs patch with
            | e0 :: _ => fst (Put pb patchErrKey e0)
            | [] => pb
            end in
  let pb := fst (Put pb patchSourceKey (URI (Source patch))) in
  store pb opsKey (walk (operations patch) empty).

Lemma WalkOperations_Some ops b :
  WalkOperations ops (Some b) = Ret (Some (walk ops b)).
Proof.
  revert b. induction ops as [|op rest IH]; intros b; simpl; [reflexivity|].
  unfold persistOperation.
  destruct (op_Marshal op) as [data|err]; simpl; [|apply IH].
  destruct (NextSequence b) as [b' id]. simpl. apply IH.
Qed.

(** The bucket a patch is written into is always a new, empty one. *)
Lemma fresh_patch_bucket bucket bName bucket2 child :
  CreateBucketIfNotExists
    (match GetBucket bucket bName with
     | Some _ => fst (DeleteBucket bucket bName)
     | None => bucket
     end) bName = inl (bucket2, child) ->
  child = empty /\
  bucket2 = store (match GetBucket bucket bName with
                   | Some _ => fst (DeleteBucket bucket bName)
                   | None => bucket
                   end) bName empty.
Proof.
  unfold CreateBucketIfNotExists, GetBucket, DeleteBucket.
  destruct (String.eqb bName ""); [discriminate|].
  destruct (lookup bName (entries bucket)) as [[v|c]|] eqn:Hl; simpl.
  - rewrite Hl. discriminate.
  - rewrite lookup_remove. now intros [= <- <-].
  - rewrite Hl. now intros [= <- <-].
Qed.

Lemma store_store b k c c' : store (store b k c) k c' = store b k c'.
Proof.
  unfold store. simpl. f_equal.
  induction (entries b) as [|[k' e'] es IH]; simpl.
  - now rewrite compare_refl.
  - destruct (String.compare k k') eqn:Hc; simpl.
    + now rewrite compare_refl.
    + now rewrite compare_refl.
    + rewrite Hc. now rewrite IH.
Qed.

(** [persistUpdate] in closed form: it cannot panic, it fails only where a
    bucket cannot be created, and otherwise it puts [record_of patch] under
    the uuid. *)
Lemma persistUpdate_result patch tx :
  persistUpdate patch tx =
  match CreateBucketIfNotExists tx patchBucket with
  | inr err => Ret (tx, Some err)
  | inl (tx1, bucket) =>
      let bucket1 := match GetBucket bucket (GetUUID patch) with
                     | Some _ => fst (DeleteBucket bucket (GetUUID patch))
                     | None => bucket
                     end in
      match CreateBucketIfNotExists bucket1 (GetUUID patch) with
      | inr err => Ret (tx1, Some err)
      | inl _ =>
          Ret (store tx1 patchBucket
                 (store bucket1 (GetUUID patch) (record_of patch)), None)
      end
  end.
Proof.
  unfold persistUpdate.
  destruct (CreateBucketIfNotExists tx patchBucket) as [[tx1 bucket]|err];
    [|reflexivity].
  cbv zeta.
  destruct (CreateBucketIfNotExists _ (GetUUID patch))
    as [[bucket2 child]|err] eqn:Hc; [|reflexivity].
  apply fresh_patch_bucket in Hc. destruct Hc as [-> ->].
  unfold record_of, HasErrors.
  destruct (errs patch) as [|e0 rest]; cbn -[walk WalkOperations store];
    rewrite WalkOperations_Some; cbn -[walk store];
    now rewrite !store_store.
Qed.

Lemma persistUpdate_committed patch tx tx' :
  persistUpdate patch tx = Ret (tx', None) ->
  exists bucket,
    GetBucket tx' patchBucket = Some bucket /\
    GetBucket bucket (GetUUID patch) = Some (record_of patch).
Proof.
  rewrite persistUpdate_result.
  destruct (CreateBucketIfNotExists tx patchBucket) as [[tx1 bucket]|err];
    [|discriminate].
  cbv zeta.
  destruct (CreateBucketIfNotExists _ (GetUUID patch)); [|discriminate].
  intros [= <-]. eexists. split; apply GetBucket_store.
Qed.

Lemma Update_persist patch d :
  exists d' err,
    Update d (persistUpdate patch) = Ret (d', err) /\
    (err <> None -> d' = d) /\
    (err = None -> persistUpdate patch d = Ret (d', None)).
Proof.
  unfold Update.
  destruct (persistUpdate patch d) as [[tx' [e0|]]|] eqn:Hp; simpl.
  - exists d, (Some e0). repeat split; congruence.
  - exists tx', None. repeat split; congruence.
  - exfalso. rewrite persistUpdate_result in Hp.
    destruct (CreateBucketIfNotExists d patchBucket) as [[tx1 bucket]|err];
      [|discriminate].
    cbv zeta in Hp.
    destruct (CreateBucketIfNotExists _ (GetUUID patch)); discriminate.
Qed.

Lemma skipped_iff p patch :
  skipped p patch = true <->
  Size patch = 0 /\ snd (HasErrors patch) = false /\ lastHasErrors p = false.
Proof.
  unfold skipped. rewrite !andb_true_iff, !negb_true_iff, Z.eqb_eq. tauto.
Qed.

(** C8 (as amended).  When the transaction of a submitted patch fails, the
    failure is dropped: [Store] and [PublishPatch] give the caller nothing,
    the database is as it was before the transaction, the flag keeps this
    patch's error status, and the worker goes on with the patches sent after
    it. *)
Theorem C8_write_failure_dropped p patch p' err :
  persist_with_error p patch = Ret (p', Some err) ->
  Store p patch = Ret (p', tt) /\
  PublishPatch p patch = Ret (p', tt) /\
  db p' = db p /\
  lastHasErrors p' = snd (HasErrors patch) /\
  forall rest, worker p (patch :: rest) = worker p' rest.
Proof.
  intros H.
  assert (Hp : persist p patch = Ret p') by (unfold persist; now rewrite H).
  unfold Store, PublishPatch. simpl. rewrite Hp. simpl.
  repeat split; trivial.
  - unfold persist_with_error in H.
    destruct (skipped p patch); [discriminate|]. simpl in H.
    destruct (Update_persist patch (db p)) as (d & err' & HU & Hfail & _).
    rewrite HU in H. simpl in H. injection H as <- ->. simpl.
    apply Hfail. discriminate.
  - unfold persist_with_error in H.
    destruct (skipped p patch); [discriminate|]. simpl in H.
    destruct (Update (db p) (persistUpdate patch)) as [[d err']|];
      [|discriminate].
    simpl in H. now injection H as <- _.
Qed.

End PersistFacts.

(** What C8 asks of [Store]: that what it gives back to its caller tells a
    failed transaction from a committed one. *)
Definition surfaces_write_failures {codec : Codec} (report : unit -> bool)
  : Prop :=
  forall p patch p' err u,
    persist_with_error p patch = Ret (p', err) ->
    Store p patch = Ret (p', u) ->
    report u = match err with Some _ => true | None => false end.

Section PersistExamples.
Existing Instance Demo.codec.
Existing Instance Demo.sorter.

(** A patch whose transaction fails: bbolt refuses an empty bucket name. *)
Definition unnamed_patch : Patch := Demo.patch_at "" 30 [] ["disk full"].
Definition named_patch : Patch := Demo.patch_at "u9" 30 [] ["disk full"].

Lemma C8_write_failure_dropped_witness :
  exists p' err,
    persist_with_error Demo.store0 unnamed_patch = Ret (p', Some err) /\
    Store Demo.store0 unnamed_patch = Ret (p', tt) /\
    PublishPatch Demo.store0 unnamed_patch = Ret (p', tt) /\
    db p' = db Demo.store0 /\
    lastHasErrors p' = snd (HasErrors unnamed_patch) /\
    forall rest,
      worker Demo.store0 (unnamed_patch :: rest) = worker p' rest.
Proof.
  eexists. eexists. split; [vm_compute; reflexivity|].
  eapply (C8_write_failure_dropped Demo.store0 unnamed_patch).
  vm_compute. reflexivity.
Defined.

(** C8 as stated fails: [Store] hands its caller the same nothing after a
    failed transaction (the unnamed patch) and after a committed one. *)
Lemma C8_counterexample :
  ~ exists report : unit -> bool, surfaces_write_failures report.
Proof.
  intros [report H].
  assert (Hbad : exists p', 
             persist_with_error Demo.store0 unnamed_patch
             = Ret (p', Some ErrBucketNameRequired) /\
             Store Demo.store0 unnamed_patch = Ret (p', tt))
    by (eexists; split; vm_compute; reflexivity).
  assert (Hgood : exists p',
             persist_with_error Demo.store0 named_patch = Ret (p', None) /\
             Store Demo.store0 named_patch = Ret (p', tt))
    by (eexists; split; vm_compute; reflexivity).
  destruct Hbad as (p1 & Hb1 & Hb2), Hgood as (p2 & Hg1 & Hg2).
  pose proof (H _ _ _ _ _ Hb1 Hb2) as E1.
  pose proof (H _ _ _ _ _ Hg1 Hg2) as E2.
  simpl in E1, E2. congruence.
Qed.

(** The policy at work: an empty, error-free patch is not written on a
    store whose flag is clear; it is written once after a patch that
    reported an error, and not a second time. *)
Example suppression_and_recovery :
  let quiet := Demo.patch_at "q1" 1 [] [] in
  let failed := Demo.patch_at "f1" 2 [] ["disk full"] in
  let calm := Demo.patch_at "q2" 3 [] [] in
  let again := Demo.patch_at "q3" 4 [] [] in
  persist Demo.store0 quiet = Ret Demo.store0 /\
  map fst (match worker Demo.store0 [quiet; failed; calm; again] with
           | Ret p =>
               match GetBucket (db p) patchBucket with
               | Some bucket => entries bucket
               | None => []
               end
           | Panic => []
           end) = ["f1"; "q2"].
Proof. split; vm_compute; reflexivity. Qed.

End PersistExamples.

(** ** Load: the reconstruction of one patch *)

Section ReconstructFacts.
Context {codec : Codec} {sorter : Sorter}.

(** What the loop over the operation records enqueues and logs. *)
Fixpoint decodeOps (oc : list (string * option string))
  : outcome (list (option Operation) * list string) :=
  match oc with
  | [] => Ret ([], [])
  | (_, None) :: _ => Ret ([], [])
  | (_, Some v) :: oc' =>
      match op_Unmarshal v with
      | inl operation =>
          r <- unmarshalConflict v operation ;;
          '(ops, lines) <- decodeOps oc' ;;
          match r with
          | inl operation => Ret (operation :: ops, lines)
          | inr err =>
              Ret (None :: ops,
                   ("Cannot unmarshall conflict operation:" ++ err)%string
                     :: lines)
          end
      | inr err =>
          '(ops, lines) <- decodeOps oc' ;;
          Ret (ops, ("Cannot unmarshall operation:" ++ err)%string :: lines)
      end
  end.

Definition enqueue_all (ops : list (option Operation)) (patch : Patch)
  : Patch :=
  MkPatch (GetUUID patch) (Source patch) (Target patch) (GetStamp patch)
          (operations patch ++ ops) (errs patch).

Lemma loadOperations_decode oc patch log :
  loadOperations oc patch log
  = ('(ops, lines) <- decodeOps oc ;;
     Ret (enqueue_all ops patch, (log ++ lines)%list)).
Proof.
  revert patch log.
  induction oc as [|[k [v|]] oc IH]; intros patch log; simpl.
  - unfold enqueue_all. rewrite !app_nil_r. now destruct patch.
  - destruct (op_Unmarshal v) as [operation|err].
    + destruct (unmarshalConflict v operation) as [[op|err]|]; simpl;
        [| |reflexivity]; rewrite IH;
        destruct (decodeOps oc) as [[ops lines]|]; simpl; trivial;
        unfold enqueue_all, Enqueue; simpl; rewrite <- !app_assoc;
        reflexivity.
    + rewrite IH. destruct (decodeOps oc) as [[ops lines]|]; simpl; trivial.
      now rewrite <- app_assoc.
  - unfold enqueue_all. rewrite !app_nil_r. now destruct patch.
Qed.

(** Whether [Load] inverts the roles for a patch bucket. *)
Definition inverted (p : PatchStore) (pb : Bucket) : bool :=
  match Get pb patchSourceKey with
  | Some src => negb (String.eqb src (URI (source p)))
  | None => false
  end.

(** The bytes [Load] hands to [UnmarshalJSON]: none when the entry is absent. *)
Definition stored_stamp (pb : Bucket) : string :=
  match Get pb timeKey with Some b => b | None => "" end.

(** The patch [Load] rebuilds from the bucket [pb] under the key [k], once
    its operation records have yielded [ops]. *)
Definition loaded (p : PatchStore) (now : Z) (k : string) (pb : Bucket)
  (ops : list (option Operation)) : Patch :=
  MkPatch k
    (if inverted p pb then target p else source p)
    (if inverted p pb then source p else target p)
    (match time_UnmarshalJSON now (stored_stamp pb) with
     | inl t => t
     | inr _ => now
     end)
    ops
    (match Get pb patchErrKey with
     | Some errValue => [fmt_Errorf errValue]
     | None => []
     end).

Lemma loadPatch_eq p now bucket k pb ob ops lines :
  PathSyncSource (source p) = true ->
  PathSyncTarget (target p) = true ->
  (inverted p pb = true ->
   PathSyncSource (target p) = true /\ PathSyncTarget (source p) = true) ->
  GetBucket bucket k = Some pb ->
  GetBucket pb opsKey = Some ob ->
  decodeOps (cursor ob) = Ret (ops, lines) ->
  loadPatch p now bucket k = Ret (loaded p now k pb ops, lines).
Proof.
  intros Hs Ht Hinv Hpb Hob Hops.
  unfold loadPatch, assertSource, assertTarget, loaded, inverted, stored_stamp
    in *.
  rewrite Hs, Ht. simpl. rewrite Hpb.
  destruct (Get pb patchSourceKey) as [src|];
    [destruct (String.eqb src (URI (source p))); simpl in *|];
    try (destruct Hinv as [-> ->]; [reflexivity|]); simpl;
    rewrite Hob, loadOperations_decode, Hops; simpl;
    destruct (Get pb patchErrKey);
    destruct (time_UnmarshalJSON now _); reflexivity.
Qed.

Lemma loadPatch_inv p now bucket k q lines :
  loadPatch p now bucket k = Ret (q, lines) ->
  exists pb ob ops,
    GetBucket bucket k = Some pb /\
    GetBucket pb opsKey = Some ob /\
    decodeOps (cursor ob) = Ret (ops, lines) /\
    q = loaded p now k pb ops.
Proof.
  unfold loadPatch, assertSource, assertTarget, loaded, inverted, stored_stamp.
  destruct (PathSyncSource (source p)); [|discriminate].
  destruct (PathSyncTarget (target p)); [|discriminate]. simpl.
  destruct (GetBucket bucket k) as [pb|]; [|discriminate].
  intros H. exists pb.
  destruct (Get pb patchSourceKey) as [src|];
    [destruct (String.eqb src (URI (source p))); simpl in *|];
    try (destruct (PathSyncSource (target p)); [|discriminate];
         destruct (PathSyncTarget (source p)); [|discriminate]);
    simpl in H;
    (destruct (GetBucket pb opsKey) as [ob|]; [|discriminate]);
    rewrite loadOperations_decode in H;
    (destruct (decodeOps (cursor ob)) as [[ops lines']|] eqn:Hd;
     [|discriminate]);
    simpl in H; exists ob, ops;
    destruct (Get pb patchErrKey);
    destruct (time_UnmarshalJSON now _);
    injection H as <- <-; repeat split; trivial.
Qed.

Lemma loadPatches_inv p now bucket c stamps log stamps' log' :
  loadPatches p now bucket c stamps log = Ret (stamps', log') ->
  exists new,
    stamps' = (stamps ++ new)%list /\
    Forall2 (fun kv q =>
               exists lines, loadPatch p now bucket (fst kv) = Ret (q, lines))
            c new.
Proof.
  revert stamps log.
  induction c as [|[k v] c IH]; intros stamps log; simpl.
  - intros [= <- <-]. exists []. now rewrite app_nil_r.
  - destruct (loadPatch p now bucket k) as [[patch lines]|] eqn:Hp;
      [|discriminate].
    simpl. intros H. apply IH in H. destruct H as (new & -> & HF).
    exists (patch :: new). rewrite <- app_assoc. split; [reflexivity|].
    constructor; [|exact HF]. now exists lines.
Qed.

(** Every patch [Load] returns was rebuilt from the bucket under its uuid. *)
Lemma Load_origin p now offset limit r q :
  Load p now offset limit = Ret r -> In q (patches r) ->
  exists bucket pb ob ops lines,
    GetBucket (db p) patchBucket = Some bucket /\
    GetBucket bucket (GetUUID q) = Some pb /\
    GetBucket pb opsKey = Some ob /\
    decodeOps (cursor ob) = Ret (ops, lines) /\
    q = loaded p now (GetUUID q) pb ops.
Proof.
  intros HL Hq. apply Load_inv in HL.
  destruct HL as (stamps & log & Hv & ->). simpl in Hq.
  apply page_incl in Hq. destruct Hq as [[]|Hq].
  apply (Permutation_in _ (Permutation_sym (sort_Sort_perm _ Less stamps)))
    in Hq.
  unfold loadView in Hv.
  destruct (GetBucket (db p) patchBucket) as [bucket|];
    [|injection Hv as <- _; destruct Hq].
  destruct (loadPatches _ _ _ _ _ _) as [[st lg]|] eqn:HP; [|discriminate].
  simpl in Hv. injection Hv as -> ->.
  apply loadPatches_inv in HP. destruct HP as (new & -> & HF).
  simpl in Hq. exists bucket.
  clear - HF Hq. induction HF as [|kv q' c new Hhd _ IH]; [destruct Hq|].
  destruct Hq as [->|Hq]; [|now apply IH].
  destruct Hhd as [lines Hl]. apply loadPatch_inv in Hl.
  destruct Hl as (pb & ob & ops & Hpb & Hob & Hd & ->). simpl.
  now exists pb, ob, ops, lines.
Qed.

End ReconstructFacts.

Section ReconstructClaims.
Context {codec : Codec} {sorter : Sorter}.

Lemma cursor_keys b : map fst (cursor b) = map fst (entries b).
Proof.
  unfold cursor. rewrite map_map. apply map_ext. now intros [k e].
Qed.

Lemma loadPatches_total p now bucket c stamps log :
  (forall k, In k (map fst c) ->
             exists q lines, loadPatch p now bucket k = Ret (q, lines)) ->
  exists stamps' log',
    loadPatches p now bucket c stamps log = Ret (stamps', log').
Proof.
  revert stamps log. induction c as [|[k v] c IH]; intros stamps log H; simpl.
  - now eexists _, _.
  - destruct (H k (or_introl eq_refl)) as (q & lines & ->). simpl.
    apply IH. intros k' Hk'. apply H. now right.
Qed.

(** C6.  For every patch [Load] returns, rebuilt from the bucket under its
    uuid: if the stored source identity differs from the configured source's
    URI, the patch's source is the configured target and its target the
    configured source; if it equals that URI, the configured orientation is
    kept. *)
Theorem C6_role_inversion p now offset limit r q :
  Load p now offset limit = Ret r -> In q (patches r) ->
  exists bucket pb,
    GetBucket (db p) patchBucket = Some bucket /\
    GetBucket bucket (GetUUID q) = Some pb /\
    forall src, Get pb patchSourceKey = Some src ->
      (src <> URI (source p) ->
       Source q = target p /\ Target q = source p) /\
      (src = URI (source p) ->
       Source q = source p /\ Target q = target p).
Proof.
  intros HL Hq.
  destruct (Load_origin _ _ _ _ _ _ HL Hq)
    as (bucket & pb & ob & ops & lines & Hb & Hpb & _ & _ & E).
  exists bucket, pb. repeat split; trivial; rewrite E; unfold loaded, inverted;
    simpl; rewrite H.
  1,2: apply String.eqb_neq in H0; now rewrite H0.
  all: apply String.eqb_eq in H0; now rewrite H0.
Qed.

(** C7.  For a patch bucket whose stored stamp is absent or fails to parse
    (and which is otherwise loadable), the reconstruction of the patch
    succeeds and the patch's timestamp is the current time at load; and when
    the other patch buckets load too, [Load] returns with no error, and the
    patch it returns for this bucket carries that timestamp. *)
Theorem C7_stamp_default p now bucket k pb ob ops lines err :
  PathSyncSource (source p) = true ->
  PathSyncTarget (target p) = true ->
  (inverted p pb = true ->
   PathSyncSource (target p) = true /\ PathSyncTarget (source p) = true) ->
  GetBucket (db p) patchBucket = Some bucket ->
  GetBucket bucket k = Some pb ->
  GetBucket pb opsKey = Some ob ->
  decodeOps (cursor ob) = Ret (ops, lines) ->
  time_UnmarshalJSON now (stored_stamp pb) = inr err ->
  (exists q,
     loadPatch p now bucket k = Ret (q, lines) /\
     GetUUID q = k /\ operations q = ops /\ GetStamp q = now) /\
  ((forall k', In k' (map fst (entries bucket)) -> k' <> k ->
      exists q' lines', loadPatch p now bucket k' = Ret (q', lines')) ->
   forall offset limit,
   exists r,
     Load p now offset limit = Ret r /\ e r = None /\
     forall q, In q (patches r) -> GetUUID q = k -> GetStamp q = now).
Proof.
  intros Hs Ht Hinv Hb Hpb Hob Hops Htime.
  pose proof (loadPatch_eq p now bucket k pb ob ops lines
                Hs Ht Hinv Hpb Hob Hops) as Hk.
  split.
  - eexists. split; [exact Hk|]. unfold loaded. simpl. now rewrite Htime.
  - intros Hothers offset limit.
    destruct (loadPatches_total p now bucket (cursor bucket) [] [])
      as (stamps & log & HP).
    { intros k' Hk'. rewrite cursor_keys in Hk'.
      destruct (String.eqb_spec k' k) as [->|Hne]; [eauto|].
      now apply Hothers. }
    assert (Hv : loadView p now (db p) = Ret ((stamps, log), None)).
    { unfold loadView. rewrite Hb, HP. reflexivity. }
    eexists. split; [apply (Load_of_view _ _ _ _ _ _ Hv)|].
    split; [reflexivity|].
    intros q Hq Hu.
    destruct (Load_origin _ _ _ _ _ q (Load_of_view _ _ offset limit _ _ Hv) Hq)
      as (bucket' & pb' & ob' & ops' & lines' & Hb' & Hpb' & _ & _ & E).
    rewrite Hb in Hb'. injection Hb' as <-.
    rewrite Hu, Hpb in Hpb'. injection Hpb' as <-.
    rewrite E. unfold loaded. simpl. now rewrite Htime.
Qed.

(** The record of a conflict that lacks one of its three fields: [Load] logs
    the error and enqueues the [nil] operation [unmarshalConflict] returned. *)
Lemma missing_conflict_field_enqueued k v o ii oc patch log :
  op_Unmarshal v = inl (Some o) ->
  Type_ o = OpConflict ->
  json_Unmarshal_map v = inl ii ->
  index "ConflictType" ii = None \/
  (exists n, index "ConflictType" ii = Some (JNumber n)) /\
  (index "LeftOp" ii = None \/
   (exists l lo, index "LeftOp" ii = Some l /\
                 op_Unmarshal (json_Marshal l) = inl lo) /\
   index "RightOp" ii = None) ->
  exists msg,
    loadOperations ((k, Some v) :: oc) patch log
    = loadOperations oc (Enqueue None patch) (log ++ [msg])%list.
Proof.
  intros Hop Hty Hmap Hmiss. simpl. rewrite Hop.
  unfold unmarshalConflict. rewrite Hty, Hmap. simpl.
  destruct Hmiss as [->|[[n ->] [->|[(l & lo & -> & ->) ->]]]]; simpl;
    eexists; reflexivity.
Qed.

(** The sibling path: a record that does not decode is logged and skipped. *)
Lemma undecodable_record_skipped k v err oc patch log :
  op_Unmarshal v = inr err ->
  loadOperations ((k, Some v) :: oc) patch log
  = loadOperations oc patch
      (log ++ [("Cannot unmarshall operation:" ++ err)%string])%list.
Proof. intros H. simpl. now rewrite H. Qed.

End ReconstructClaims.

Section ReconstructExamples.
Existing Instance Demo.codec.
Existing Instance Demo.sorter.

Lemma C6_role_inversion_witness :
  exists r q,
    Load Demo.reversed 1000 0 10 = Ret r /\ In q (patches r) /\
    Source q = Demo.remote /\ Target q = Demo.local.
Proof.
  eexists. eexists. split; [vm_compute; reflexivity|].
  match goal with
  | |- In ?q (patches ?r) /\ _ =>
      assert (HL : Load Demo.reversed 1000 0 10 = Ret r)
        by (vm_compute; reflexivity);
      assert (Hin : In q (patches r)) by (left; reflexivity)
  end.
  split; [exact Hin|].
  destruct (C6_role_inversion _ _ _ _ _ _ HL Hin)
    as (bucket & pb & Hb & Hpb & H).
  vm_compute in Hb. injection Hb as <-.
  vm_compute in Hpb. injection Hpb as <-.
  apply (H (URI Demo.remote)); [vm_compute; reflexivity|discriminate].
Defined.

Lemma C7_stamp_default_witness :
  exists bucket q lines,
    GetBucket (db Demo.unstamped) patchBucket = Some bucket /\
    loadPatch Demo.unstamped 1000 bucket "t1" = Ret (q, lines) /\
    GetUUID q = "t1" /\ operations q = [Demo.op_a] /\ GetStamp q = 1000.
Proof.
  edestruct C7_stamp_default
    with (p := Demo.unstamped) (now := 1000) (k := "t1")
    as [(q & H1 & H2 & H3 & H4) _].
  4: (vm_compute; reflexivity).
  4: (vm_compute; reflexivity).
  4: (vm_compute; reflexivity).
  4: (vm_compute; reflexivity).
  4: (vm_compute; reflexivity).
  1, 2: reflexivity.
  1: (intros H; vm_compute in H; discriminate H).
  eexists. exists q. eexists.
  split; [vm_compute; reflexivity|].
  split; [exact H1|]. split; [exact H2|]. split; [exact H3|exact H4].
Defined.

(** C1 at the failing input.  The stored patch has three operation records,
    the second tagged as a conflict and without [LeftOp]: [Load] logs the
    error and the loaded patch has three operations, the second of them
    [nil], where the claim has the record skipped and two operations
    loaded. *)
Theorem C1_missing_field_not_skipped :
  exists r q,
    Load Demo.damaged 1000 0 10 = Ret r /\
    patches r = [q] /\
    operations q = [Demo.op_a; None; Demo.op_c] /\
    logged r = ["Cannot unmarshall conflict operation:unmarshalling conflict: missing key LeftOp"].
Proof.
  eexists. eexists. split; [vm_compute; reflexivity|].
  repeat split; reflexivity.
Qed.

End ReconstructExamples.

(** ** Sequence keys *)

(** The byte of [v] at position [i], as a number. *)
Definition digit (v i : Z) : Z := (v / 2 ^ (8 * i)) mod 256.

Lemma digit_bound v i : 0 <= digit v i < 256.
Proof. unfold digit. apply Z.mod_pos_bound. lia. Qed.

Lemma byte_at_digit v i :
  0 <= i -> N_of_ascii (byte_at v i) = Z.to_N (digit v i).
Proof.
  intros Hi. unfold byte_at, digit.
  rewrite Z.shiftr_div_pow2 by lia.
  change 255 with (Z.ones 8). rewrite Z.land_ones by lia.
  change (2 ^ 8) with 256.
  apply N_ascii_embedding.
  pose proof (Z.mod_pos_bound (v / 2 ^ (8 * i)) 256 ltac:(lia)). lia.
Qed.

Lemma byte_at_compare a b i :
  0 <= i ->
  Ascii.compare (byte_at a i) (byte_at b i) = (digit a i ?= digit b i).
Proof.
  intros Hi. unfold Ascii.compare. rewrite !byte_at_digit by assumption.
  pose proof (digit_bound a i). pose proof (digit_bound b i).
  rewrite <- Z2N.inj_compare by lia. reflexivity.
Qed.

(** A 64-bit value is the sum of its eight bytes. *)
Lemma digits_sum v :
  0 <= v < 2 ^ 64 ->
  v = digit v 0 + 256 * (digit v 1 + 256 * (digit v 2 + 256 * (digit v 3
      + 256 * (digit v 4 + 256 * (digit v 5 + 256 * (digit v 6
      + 256 * digit v 7)))))).
Proof.
  intros Hv. unfold digit.
  assert (Hstep : forall i, 0 <= i ->
            v / 2 ^ (8 * i)
            = 256 * (v / 2 ^ (8 * (i + 1))) + (v / 2 ^ (8 * i)) mod 256).
  { intros i Hi.
    replace (8 * (i + 1)) with (8 * i + 8) by lia.
    rewrite Z.pow_add_r by lia. change (2 ^ 8) with 256.
    rewrite <- Z.div_div by lia.
    apply Z.div_mod. lia. }
  pose proof (Hstep 0 ltac:(lia)) as H0.
  pose proof (Hstep 1 ltac:(lia)) as H1.
  pose proof (Hstep 2 ltac:(lia)) as H2.
  pose proof (Hstep 3 ltac:(lia)) as H3.
  pose proof (Hstep 4 ltac:(lia)) as H4.
  pose proof (Hstep 5 ltac:(lia)) as H5.
  pose proof (Hstep 6 ltac:(lia)) as H6.
  pose proof (Hstep 7 ltac:(lia)) as H7.
  assert (H8 : v / 2 ^ (8 * (7 + 1)) = 0).
  { apply Z.div_small. exact Hv. }
  change (0 + 1) with 1 in *. change (1 + 1) with 2 in *.
  change (2 + 1) with 3 in *. change (3 + 1) with 4 in *.
  change (4 + 1) with 5 in *. change (5 + 1) with 6 in *.
  change (6 + 1) with 7 in *. change (7 + 1) with 8 in *.
  change (8 * 0) with 0 in *. rewrite Z.pow_0_r, Z.div_1_r in *.
  clear Hstep.
  generalize dependent (v / 2 ^ (8 * 1)). generalize dependent (v / 2 ^ (8 * 2)).
  generalize dependent (v / 2 ^ (8 * 3)). generalize dependent (v / 2 ^ (8 * 4)).
  generalize dependent (v / 2 ^ (8 * 5)). generalize dependent (v / 2 ^ (8 * 6)).
  generalize dependent (v / 2 ^ (8 * 7)). generalize dependent (v / 2 ^ (8 * 8)).
  intros. lia.
Qed.

(** Big endian keys compare as the numbers they encode. *)
Lemma itob_compares a b :
  0 <= a < 2 ^ 64 -> 0 <= b < 2 ^ 64 ->
  String.compare (itob a) (itob b) = (a ?= b).
Proof.
  intros Ha Hb.
  pose proof (digits_sum a Ha) as Ea. pose proof (digits_sum b Hb) as Eb.
  unfold itob. cbn [map string_of_list_ascii String.compare].
  rewrite !byte_at_compare by lia.
  pose proof (digit_bound a 0). pose proof (digit_bound a 1).
  pose proof (digit_bound a 2). pose proof (digit_bound a 3).
  pose proof (digit_bound a 4). pose proof (digit_bound a 5).
  pose proof (digit_bound a 6). pose proof (digit_bound a 7).
  pose proof (digit_bound b 0). pose proof (digit_bound b 1).
  pose proof (digit_bound b 2). pose proof (digit_bound b 3).
  pose proof (digit_bound b 4). pose proof (digit_bound b 5).
  pose proof (digit_bound b 6). pose proof (digit_bound b 7).
  repeat match goal with
         | |- context [digit ?x ?i ?= digit ?y ?i] =>
             destruct (Z.compare_spec (digit x i) (digit y i))
         end;
    symmetry;
    first [apply Z.compare_eq_iff; lia
          |apply Z.compare_lt_iff; lia
          |apply Z.compare_gt_iff; lia].
Qed.

(** [itob] keeps the order and the identity of 64-bit values: the keys
    compare bytewise as the numbers do, and equal keys come from equal
    numbers. *)
Theorem itob_compare a b :
  0 <= a < 2 ^ 64 -> 0 <= b < 2 ^ 64 ->
  String.compare (itob a) (itob b) = (a ?= b) /\
  (itob a = itob b -> a = b).
Proof.
  intros Ha Hb. split; [now apply itob_compares|].
  intros E. apply Z.compare_eq. rewrite <- itob_compares by assumption.
  rewrite E. apply compare_refl.
Qed.

Lemma itob_nonempty v : String.eqb (itob v) "" = false.
Proof. reflexivity. Qed.

#[local] Arguments itob : simpl never.

(** ** Round trip of a patch's operations *)

(** Records under the sequence keys [s], [s + 1], ... *)
Fixpoint numbered (s : Z) (ds : list string) : list (string * Entry) :=
  match ds with
  | [] => []
  | d :: ds' => (itob s, Value d) :: numbered (s + 1) ds'
  end.

Lemma numbered_app s a b :
  numbered s (a ++ b)
  = (numbered s a ++ numbered (s + Z.of_nat (List.length a)) b)%list.
Proof.
  revert s. induction a as [|d a IH]; intros s; simpl.
  - now rewrite Z.add_0_r.
  - rewrite IH. do 3 f_equal. lia.
Qed.

Lemma numbered_keys s ds :
  Forall (fun kv => exists i,
            s <= i < s + Z.of_nat (List.length ds) /\ fst kv = itob i)
         (numbered s ds).
Proof.
  revert s. induction ds as [|d ds IH]; intros s; simpl; constructor.
  - exists s. simpl. split; [lia|reflexivity].
  - eapply Forall_impl; [|apply IH].
    intros kv (i & Hi & E). exists i. split; [lia|exact E].
Qed.

Lemma numbered_values k s ds c : lookup k (numbered s ds) <> Some (Nested c).
Proof.
  revert s. induction ds as [|d ds IH]; intros s; simpl; [discriminate|].
  destruct (String.eqb k (itob s)); [discriminate|apply IH].
Qed.

(** The keys are in ascending order. *)
Lemma numbered_ascending s ds :
  0 <= s -> s + Z.of_nat (List.length ds) <= 2 ^ 64 ->
  StronglySorted (fun a b => String.compare (fst a) (fst b) = Lt)
                 (numbered s ds).
Proof.
  revert s. induction ds as [|d ds IH]; intros s H0 Hlen;
    cbn [numbered List.length] in *; constructor.
  - apply IH; lia.
  - eapply Forall_impl; [|apply numbered_keys].
    intros kv (i & Hi & E). cbn [fst]. rewrite E.
    rewrite itob_compares by lia. apply Z.compare_lt_iff. lia.
Qed.

Section RoundTrip.
Context {codec : Codec} {sorter : Sorter}.

(** The data [persist] writes for the operations, in order: those that
    marshal. *)
Fixpoint marshalled (ops : list (option Operation)) : list string :=
  match ops with
  | [] => []
  | op :: rest =>
      match op_Marshal op with
      | inl d => d :: marshalled rest
      | inr _ => marshalled rest
      end
  end.

Lemma marshalled_length ops :
  (List.length (marshalled ops) <= List.length ops)%nat.
Proof.
  induction ops as [|op rest IH]; simpl; [lia|].
  destruct (op_Marshal op); simpl; lia.
Qed.

Lemma walk_numbered ops ds0 :
  Z.of_nat (List.length ds0) + Z.of_nat (List.length (marshalled ops)) < 2 ^ 64 ->
  walk ops (MkBucket (numbered 1 ds0) (Z.of_nat (List.length ds0)))
  = MkBucket (numbered 1 (ds0 ++ marshalled ops))
             (Z.of_nat (List.length ds0)
              + Z.of_nat (List.length (marshalled ops))).
Proof.
  revert ds0. induction ops as [|op rest IH]; intros ds0 Hlen;
    cbn [walk marshalled] in *.
  - cbn [List.length]. change (Z.of_nat 0) with 0.
    now rewrite app_nil_r, Z.add_0_r.
  - destruct (op_Marshal op) as [d|err]; [|now apply IH].
    cbn [List.length] in Hlen |- *. rewrite Nat2Z.inj_succ in Hlen |- *.
    unfold NextSequence, wrap_uint64. cbn [sequence entries].
    rewrite Z.mod_small by lia.
    unfold Put. rewrite itob_nonempty. cbn [entries sequence].
    assert (Hins : insert (itob (Z.of_nat (List.length ds0) + 1)) (Value d)
                          (numbered 1 ds0)
                   = numbered 1 (ds0 ++ [d])).
    { rewrite insert_last.
      - rewrite numbered_app. cbn [numbered].
        now rewrite (Z.add_comm 1).
      - eapply Forall_impl; [|apply numbered_keys].
        intros kv (i & Hi & E). rewrite E.
        rewrite itob_compares by lia. apply Z.compare_gt_iff. lia. }
    assert (Hlen' : Z.of_nat (List.length (ds0 ++ [d]))
                    = Z.of_nat (List.length ds0) + 1)
      by (rewrite length_app; cbn [List.length]; lia).
    assert (Hgoal :
      walk rest (MkBucket (insert (itob (Z.of_nat (List.length ds0) + 1))
                                  (Value d) (numbered 1 ds0))
                          (Z.of_nat (List.length ds0) + 1))
      = MkBucket (numbered 1 (ds0 ++ d :: marshalled rest))
                 (Z.of_nat (List.length ds0)
                  + Z.succ (Z.of_nat (List.length (marshalled rest))))).
    { rewrite Hins, <- Hlen'. rewrite IH by lia.
      rewrite <- app_assoc. cbn [app]. f_equal. lia. }
    destruct (lookup _ (numbered 1 ds0)) as [[v|c]|] eqn:Hl;
      [|now apply numbered_values in Hl|]; cbn [fst]; exact Hgoal.
Qed.

(** The operations bucket of a persisted patch: its data under the keys
    [itob 1], [itob 2], ... in the order the operations were walked. *)
Lemma walk_empty ops :
  Z.of_nat (List.length ops) < 2 ^ 64 ->
  walk ops empty
  = MkBucket (numbered 1 (marshalled ops))
             (Z.of_nat (List.length (marshalled ops))).
Proof.
  intros Hlen. pose proof (marshalled_length ops).
  apply (walk_numbered ops []). cbn [List.length]. lia.
Qed.

(** An operation that the codecs carry through the store unchanged. *)
Definition round_trips (op : option Operation) : Prop :=
  exists d,
    op_Marshal op = inl d /\
    op_Unmarshal d = inl op /\
    unmarshalConflict d op = Ret (inl op).

Lemma decode_numbered s ops n :
  Forall round_trips ops ->
  decodeOps (cursor (MkBucket (numbered s (marshalled ops)) n))
  = Ret (ops, []).
Proof.
  intros H. revert s. induction H as [|op ops (d & Hm & Hu & Hc) _ IH];
    intros s; simpl; [reflexivity|].
  rewrite Hm. simpl. rewrite Hu, Hc. simpl.
  unfold cursor in IH. simpl in IH. rewrite IH. reflexivity.
Qed.

Lemma record_ops patch :
  GetBucket (record_of patch) opsKey = Some (walk (operations patch) empty).
Proof. apply GetBucket_store. Qed.

Lemma record_source patch :
  Get (record_of patch) patchSourceKey = Some (URI (Source patch)).
Proof. unfold record_of. now destruct (errs patch). Qed.

Lemma record_stamp patch :
  Get (record_of patch) timeKey = Some (stamp_bytes patch).
Proof. unfold record_of. now destruct (errs patch). Qed.

Lemma record_error patch :
  Get (record_of patch) patchErrKey = hd_error (errs patch).
Proof. unfold record_of. now destruct (errs patch). Qed.

(** What a committed [persist] leaves in the store. *)
Lemma persist_committed p patch p' :
  persist_with_error p patch = Ret (p', None) ->
  skipped p patch = false ->
  source p' = source p /\ target p' = target p /\
  exists bucket,
    GetBucket (db p') patchBucket = Some bucket /\
    GetBucket bucket (GetUUID patch) = Some (record_of patch).
Proof.
  unfold persist_with_error. intros H Hs. rewrite Hs in H. simpl in H.
  destruct (Update_persist patch (db p)) as (d & err & HU & _ & Hok).
  rewrite HU in H. simpl in H. injection H as <- ->. simpl.
  repeat split. apply (persistUpdate_committed patch (db p)). now apply Hok.
Qed.

(** The operations bucket of a committed patch: the data of its operations
    under the sequence keys 1, 2, ... as 8-byte big endian strings, in the
    order the operations were walked, which is ascending key order. *)
Theorem persisted_operation_keys p patch p' :
  persist_with_error p patch = Ret (p', None) ->
  skipped p patch = false ->
  Z.of_nat (List.length (operations patch)) < 2 ^ 64 ->
  exists bucket pb ob,
    GetBucket (db p') patchBucket = Some bucket /\
    GetBucket bucket (GetUUID patch) = Some pb /\
    GetBucket pb opsKey = Some ob /\
    entries ob = numbered 1 (marshalled (operations patch)) /\
    sequence ob = Z.of_nat (List.length (marshalled (operations patch))) /\
    StronglySorted (fun a b => String.compare (fst a) (fst b) = Lt)
                   (entries ob).
Proof.
  intros Hp Hs Hlen.
  destruct (persist_committed _ _ _ Hp Hs) as (_ & _ & bucket & Hb & Hpb).
  pose proof (record_ops patch) as Hob. rewrite walk_empty in Hob by exact Hlen.
  pose proof (marshalled_length (operations patch)) as Hml.
  exists bucket, (record_of patch). eexists.
  split; [exact Hb|]. split; [exact Hpb|]. split; [exact Hob|].
  split; [reflexivity|]. split; [reflexivity|].
  apply numbered_ascending; lia.
Qed.

(** A patch that is persisted (its transaction committed), with operations
    the codecs carry unchanged, is rebuilt from the store with its operations
    in exactly the order they were walked in, and so is every patch [Load]
    returns under this uuid. *)
Theorem operations_round_trip p patch p' now :
  persist_with_error p patch = Ret (p', None) ->
  skipped p patch = false ->
  Z.of_nat (List.length (operations patch)) < 2 ^ 64 ->
  Forall round_trips (operations patch) ->
  PathSyncSource (source p) = true -> PathSyncTarget (target p) = true ->
  PathSyncSource (target p) = true -> PathSyncTarget (source p) = true ->
  exists bucket,
    GetBucket (db p') patchBucket = Some bucket /\
    (exists q,
       loadPatch p' now bucket (GetUUID patch) = Ret (q, []) /\
       operations q = operations patch) /\
    (forall offset limit r q,
       Load p' now offset limit = Ret r -> In q (patches r) ->
       GetUUID q = GetUUID patch -> operations q = operations patch).
Proof.
  intros Hp Hs Hlen Hrt Hss Htt Hts Hst.
  destruct (persist_committed _ _ _ Hp Hs) as (Es & Et & bucket & Hb & Hpb).
  pose proof (record_ops patch) as Hob. rewrite walk_empty in Hob by exact Hlen.
  exists bucket. split; [exact Hb|]. split.
  - eexists. split.
    + eapply (loadPatch_eq p' now bucket (GetUUID patch) (record_of patch)).
      * rewrite Es. exact Hss.
      * rewrite Et. exact Htt.
      * intros _. rewrite Es, Et. now split.
      * exact Hpb.
      * exact Hob.
      * now apply decode_numbered.
    + reflexivity.
  - intros offset limit r q HL Hq Hu.
    destruct (Load_origin _ _ _ _ _ _ HL Hq)
      as (bucket' & pb' & ob' & ops' & lines' & Hb' & Hpb' & Hob' & Hd & E).
    rewrite Hb in Hb'. injection Hb' as <-.
    rewrite Hu, Hpb in Hpb'. injection Hpb' as <-.
    rewrite Hob in Hob'. injection Hob' as <-.
    rewrite decode_numbered in Hd by exact Hrt. injection Hd as <- _.
    rewrite E. reflexivity.
Qed.

End RoundTrip.

(** * Further properties of the store *)

(** ** Paging in general *)

Lemma sort_nil {sorter : Sorter} {A} (less : A -> A -> bool) :
  sort_Sort less [] = [].
Proof.
  apply Permutation_nil. apply sort_Sort_perm.
Qed.

Lemma firstn_add {A} (a b : nat) (l : list A) :
  firstn (a + b) l = (firstn a l ++ firstn b (skipn a l))%list.
Proof.
  revert l. induction a as [|a IH]; intros l; [reflexivity|].
  destruct l as [|x l]; simpl.
  - now rewrite firstn_nil.
  - now rewrite IH.
Qed.

(** The page loop from the first index, for every offset and limit. *)
Lemma page_run offset limit (l : list Patch) :
  page 0 offset limit l []
  = firstn (Z.to_nat (Z.max 0 (page_bound offset limit - Z.max 0 offset) + 1))
           (skipn (Z.to_nat offset) l).
Proof.
  destruct (Z.le_gt_cases 0 offset) as [H|H].
  - rewrite page_slice by lia. rewrite Z.sub_0_r.
    now replace (Z.max 0 offset) with offset by lia.
  - rewrite page_from by lia.
    replace (Z.to_nat offset) with 0%nat by lia.
    replace (Z.max 0 offset) with 0 by lia.
    now rewrite Z.sub_0_r.
Qed.

Section PagingFacts.
Context {codec : Codec} {sorter : Sorter}.

(** For every offset and limit, the page is one contiguous run of the sorted
    set: it starts at the offset (at the first patch when the offset is
    negative) and runs through the index [offset + limit - 1], computed in
    [int], taking one patch at least when there is one at the start. *)
Theorem Load_page_contiguous p now offset limit stamps log :
  loadView p now (db p) = Ret ((stamps, log), None) ->
  exists r,
    Load p now offset limit = Ret r /\
    patches r
    = firstn (Z.to_nat (Z.max 0 (page_bound offset limit - Z.max 0 offset) + 1))
             (skipn (Z.to_nat offset) (sort_Sort Less stamps)).
Proof.
  intros Hv. eexists. split; [apply (Load_of_view _ _ _ _ _ _ Hv)|].
  cbn [patches]. apply page_run.
Qed.

(** With a negative offset the page starts at the first patch and is
    shortened by the offset: it holds the positions 0 through
    [offset + limit - 1], and the first patch alone when that is negative. *)
Theorem Load_negative_offset p now offset limit stamps log :
  loadView p now (db p) = Ret ((stamps, log), None) ->
  offset < 0 -> is_int (offset + limit - 1) ->
  exists r,
    Load p now offset limit = Ret r /\
    patches r
    = firstn (Z.to_nat (Z.max 0 (offset + limit - 1) + 1))
             (sort_Sort Less stamps).
Proof.
  intros Hv Ho Hsum.
  eexists. split; [apply (Load_of_view _ _ _ _ _ _ Hv)|].
  cbn [patches]. rewrite page_run.
  rewrite page_bound_exact by exact Hsum.
  replace (Z.to_nat offset) with 0%nat by lia.
  replace (Z.max 0 offset) with 0 by lia.
  now rewrite Z.sub_0_r.
Qed.

(** Consecutive pages of an unchanged store are contiguous: the page at
    [offset] of [limit] patches followed by the page at [offset + limit] of
    [limit'] patches is the page at [offset] of [limit + limit'] patches. *)
Theorem Load_pages_compose p now offset limit limit' stamps log :
  loadView p now (db p) = Ret ((stamps, log), None) ->
  0 <= offset -> 1 <= limit -> 1 <= limit' ->
  offset + limit + limit' - 1 <= MaxInt ->
  exists r1 r2 r,
    Load p now offset limit = Ret r1 /\
    Load p now (offset + limit) limit' = Ret r2 /\
    Load p now offset (limit + limit') = Ret r /\
    patches r = (patches r1 ++ patches r2)%list.
Proof.
  intros Hv Ho Hl Hl' Hsum.
  assert (Hpage : forall o l, 0 <= o -> 1 <= l -> o + l - 1 <= MaxInt ->
            exists r, Load p now o l = Ret r /\
                      patches r = slice o l (sort_Sort Less stamps)).
  { intros o l H0 H1 H2.
    eexists. split; [apply (Load_of_view _ _ _ _ _ _ Hv)|].
    cbn [patches]. rewrite page_run.
    rewrite page_bound_exact by int_bounds. unfold slice.
    now replace (Z.max 0 (o + l - 1 - Z.max 0 o) + 1) with l by lia. }
  destruct (Hpage offset limit) as (r1 & H1 & E1); try lia.
  destruct (Hpage (offset + limit) limit') as (r2 & H2 & E2); try lia.
  destruct (Hpage offset (limit + limit')) as (r & H3 & E3); try lia.
  exists r1, r2, r. split; [exact H1|]. split; [exact H2|].
  split; [exact H3|]. rewrite E1, E2, E3. unfold slice.
  rewrite Z2Nat.inj_add by lia. rewrite firstn_add. f_equal.
  rewrite skipn_skipn. f_equal. f_equal. lia.
Qed.

End PagingFacts.

(** ** Opening a store, and loading as a whole *)

Section OpenFacts.
Context {codec : Codec} {sorter : Sorter}.

(** On a database without the [patches] bucket, [Load] returns no patch, no
    error and nothing to prune, whatever the offset and limit. *)
Theorem Load_without_bucket p now offset limit :
  GetBucket (db p) patchBucket = None ->
  Load p now offset limit = Ret (MkLoadResult [] None [] []).
Proof.
  intros H.
  assert (Hv : loadView p now (db p) = Ret (([], []), None))
    by (unfold loadView; now rewrite H).
  rewrite (Load_of_view _ _ _ _ _ _ Hv). now rewrite sort_nil.
Qed.

Lemma loadPatch_uuid p now bucket k q lines :
  loadPatch p now bucket k = Ret (q, lines) -> GetUUID q = k.
Proof.
  intros H. apply loadPatch_inv in H.
  destruct H as (pb & ob & ops & _ & _ & _ & ->). reflexivity.
Qed.

Lemma loadPatches_uuids p now bucket c stamps log :
  loadPatches p now bucket c [] [] = Ret (stamps, log) ->
  map GetUUID stamps = map fst c.
Proof.
  intros HP. apply loadPatches_inv in HP. destruct HP as (new & -> & HF).
  simpl. induction HF as [|kv q c new (lines & Hl) _ IH]; [reflexivity|].
  simpl. rewrite IH. f_equal. now apply loadPatch_uuid in Hl.
Qed.

Lemma loadPatches_rebuilds_all p now bucket c stamps log k :
  loadPatches p now bucket c [] [] = Ret (stamps, log) ->
  In k (map fst c) ->
  exists q lines, loadPatch p now bucket k = Ret (q, lines).
Proof.
  intros HP Hk. apply loadPatches_inv in HP. destruct HP as (new & _ & HF).
  induction HF as [|kv q c new (lines & Hl) _ IH]; [destruct Hk|].
  destruct Hk as [<-|Hk]; [eauto|now apply IH].
Qed.

(** A [Load] that returns has rebuilt the patch of every key. *)
Lemma Load_rebuilds_all p now offset limit r bucket k :
  GetBucket (db p) patchBucket = Some bucket ->
  Load p now offset limit = Ret r ->
  In k (map fst (entries bucket)) ->
  exists q lines, loadPatch p now bucket k = Ret (q, lines).
Proof.
  intros Hb HL Hk. apply Load_inv in HL.
  destruct HL as (stamps & log & Hv & _).
  unfold loadView in Hv. rewrite Hb in Hv.
  destruct (loadPatches _ _ _ _ _ _) as [[st lg]|] eqn:HP; [|discriminate].
  rewrite <- cursor_keys in Hk.
  exact (loadPatches_rebuilds_all _ _ _ _ _ _ _ HP Hk).
Qed.

(** [Load] rebuilds one patch per key of the [patches] bucket, in key order,
    each under its key as uuid. *)
Theorem loadView_uuids p now bucket stamps log :
  GetBucket (db p) patchBucket = Some bucket ->
  loadView p now (db p) = Ret ((stamps, log), None) ->
  map GetUUID stamps = map fst (entries bucket).
Proof.
  intros Hb Hv. unfold loadView in Hv. rewrite Hb in Hv.
  destruct (loadPatches _ _ _ _ _ _) as [[st lg]|] eqn:HP; [|discriminate].
  simpl in Hv. injection Hv as -> ->.
  rewrite <- cursor_keys. exact (loadPatches_uuids _ _ _ _ _ _ HP).
Qed.

(** [Load] rebuilds every stored patch before it pages: it returns if and
    only if every patch bucket can be rebuilt, and otherwise panics, whatever
    page is asked for. *)
Theorem Load_returns_iff p now offset limit bucket :
  GetBucket (db p) patchBucket = Some bucket ->
  (exists r, Load p now offset limit = Ret r) <->
  (forall k, In k (map fst (entries bucket)) ->
             exists q lines, loadPatch p now bucket k = Ret (q, lines)).
Proof.
  intros Hb. split.
  - intros [r HL] k Hk. exact (Load_rebuilds_all _ _ _ _ _ _ _ Hb HL Hk).
  - intros Hall.
    destruct (loadPatches_total p now bucket (cursor bucket) [] [])
      as (stamps & log & HP).
    { intros k Hk. rewrite cursor_keys in Hk. now apply Hall. }
    eexists. apply Load_of_view. unfold loadView. rewrite Hb, HP. reflexivity.
Qed.

(** [NewPatchStore] leaves the database and the endpoints as given and seeds
    the flag from the most recent stored patch: the flag is set exactly when
    that patch, the first of the stored set sorted by stamp, carries an
    error; a store without patches starts with the flag clear. *)
Theorem NewPatchStore_seed d src tgt now stamps log :
  loadView (MkPatchStore src tgt d false) now d = Ret ((stamps, log), None) ->
  NewPatchStore d src tgt now
  = Ret (MkPatchStore src tgt d
           (match sort_Sort Less stamps with
            | last :: _ => snd (HasErrors last)
            | [] => false
            end)) /\
  (forall last rest q,
      sort_Sort Less stamps = last :: rest -> In q stamps ->
      GetStamp q <= GetStamp last).
Proof.
  intros Hv. split.
  - unfold NewPatchStore.
    rewrite (Load_of_view (MkPatchStore src tgt d false) now 0 1 stamps log Hv).
    simpl. rewrite page_slice by lia.
    rewrite page_bound_exact by int_bounds. simpl.
    destruct (sort_Sort Less stamps) as [|last rest]; reflexivity.
  - intros last rest q Hsort Hq.
    pose proof (sort_descending stamps) as Hd. rewrite Hsort in Hd.
    apply (Permutation_in _ (sort_Sort_perm _ Less stamps)) in Hq.
    rewrite Hsort in Hq. destruct Hq as [->|Hq]; [lia|].
    inversion Hd as [|? ? _ Hall]; subst.
    rewrite Forall_forall in Hall. now apply Hall.
Qed.

End OpenFacts.

(** ** Persisting: failures, replacement, suppression *)

(** A key that names a plain value, where a bucket is wanted. *)
Definition names_value (b : Bucket) (k : string) : Prop :=
  exists v, lookup k (entries b) = Some (Value v).

(** The [patches] bucket as a transaction finds it: empty when absent. *)
Definition top_bucket (tx : Bucket) : Bucket :=
  match GetBucket tx patchBucket with
  | Some b => b
  | None => empty
  end.

(** What makes bbolt refuse the buckets [persist] needs: the name [patches]
    holds a plain value at the root, or the patch's uuid is empty, or the
    uuid names a plain value in the [patches] bucket. *)
Definition refused (tx : Bucket) (patch : Patch) : Prop :=
  names_value tx patchBucket \/ GetUUID patch = "" \/
  names_value (top_bucket tx) (GetUUID patch).

(** A patch with other errors, and nothing else changed. *)
Definition with_errs (es : list error) (patch : Patch) : Patch :=
  MkPatch (GetUUID patch) (Source patch) (Target patch) (GetStamp patch)
          (operations patch) es.

Section PersistMore.
Context {codec : Codec}.

Lemma create_top tx :
  (exists v, lookup patchBucket (entries tx) = Some (Value v) /\
             CreateBucketIfNotExists tx patchBucket
             = inr ErrIncompatibleValue) \/
  (exists tx1, CreateBucketIfNotExists tx patchBucket
               = inl (tx1, top_bucket tx) /\
               GetBucket tx1 patchBucket = Some (top_bucket tx) /\
               (forall k, k <> patchBucket ->
                          lookup k (entries tx1) = lookup k (entries tx)) /\
               forall v, lookup patchBucket (entries tx) <> Some (Value v)).
Proof.
  unfold CreateBucketIfNotExists, top_bucket, GetBucket.
  change (String.eqb patchBucket "") with false. cbv iota.
  destruct (lookup patchBucket (entries tx)) as [[v|c]|] eqn:Hl.
  - left. now exists v.
  - right. exists tx. unfold GetBucket. rewrite Hl.
    repeat split; trivial. discriminate.
  - right. exists (store tx patchBucket empty).
    split; [reflexivity|]. split; [apply GetBucket_store|].
    split; [|discriminate].
    intros k Hk. now apply lookup_store_other.
Qed.

(** The transaction of [persist] cannot panic.  It fails exactly when the
    name [patches] holds a plain value at the root, or the patch's uuid is
    empty, or the uuid names a plain value in the [patches] bucket. *)
Theorem persistUpdate_fails_iff patch tx :
  exists tx' err,
    persistUpdate patch tx = Ret (tx', err) /\
    (err <> None <->
     names_value tx patchBucket \/ GetUUID patch = "" \/
     names_value (top_bucket tx) (GetUUID patch)).
Proof.
  rewrite persistUpdate_result. unfold names_value.
  destruct (create_top tx) as [(v & Hl & ->)|(tx1 & -> & _ & _ & Hnv)].
  - eexists _, _. split; [reflexivity|]. split; [eauto|discriminate].
  - cbv zeta. set (bucket := top_bucket tx).
    unfold CreateBucketIfNotExists at 1.
    destruct (String.eqb_spec (GetUUID patch) "") as [E|E].
    + eexists _, _. split; [reflexivity|]. split; [auto|discriminate].
    + unfold GetBucket, DeleteBucket.
      destruct (lookup (GetUUID patch) (entries bucket)) as [[v|c]|] eqn:Hl;
        simpl.
      * rewrite Hl. eexists _, _. split; [reflexivity|].
        split; [eauto|discriminate].
      * rewrite lookup_remove. eexists _, _. split; [reflexivity|].
        split; [congruence|].
        intros [[v Hv]|[?|[v Hv]]]; [now apply Hnv in Hv|contradiction|].
        discriminate.
      * rewrite Hl. eexists _, _. split; [reflexivity|].
        split; [congruence|].
        intros [[v Hv]|[?|[v Hv]]]; [now apply Hnv in Hv|contradiction|].
        discriminate.
Qed.

(** A committed [persist] replaces the patch's record as a whole and touches
    nothing else: under the uuid there is the new record, built from this
    patch alone, and every other key of the [patches] bucket and of the root
    holds what it held. *)
Theorem persistUpdate_replaces patch tx tx' :
  persistUpdate patch tx = Ret (tx', None) ->
  exists bucket',
    GetBucket tx' patchBucket = Some bucket' /\
    GetBucket bucket' (GetUUID patch) = Some (record_of patch) /\
    (forall k, k <> GetUUID patch ->
               lookup k (entries bucket') = lookup k (entries (top_bucket tx))) /\
    (forall k, k <> patchBucket ->
               lookup k (entries tx') = lookup k (entries tx)).
Proof.
  rewrite persistUpdate_result.
  destruct (create_top tx) as [(v & Hl & ->)|(tx1 & -> & _ & Hroot & _)];
    [discriminate|].
  cbv zeta.
  destruct (CreateBucketIfNotExists _ (GetUUID patch)); [|discriminate].
  intros [= <-]. eexists. split; [apply GetBucket_store|].
  split; [apply GetBucket_store|]. split.
  - intros k Hk. rewrite lookup_store_other by exact Hk.
    unfold GetBucket, DeleteBucket.
    destruct (lookup (GetUUID patch) (entries (top_bucket tx)))
      as [[v|c]|]; simpl; trivial.
    now apply lookup_remove_other.
  - intros k Hk. rewrite lookup_store_other by exact Hk. now apply Hroot.
Qed.

(** The transaction either is refused and returns an error, or commits. *)
Lemma persistUpdate_cases patch tx :
  (refused tx patch /\
   exists tx' e, persistUpdate patch tx = Ret (tx', Some e)) \/
  (~ refused tx patch /\
   exists tx', persistUpdate patch tx = Ret (tx', None)).
Proof.
  rewrite persistUpdate_result. unfold refused, names_value.
  destruct (create_top tx) as [(v & Hl & ->)|(tx1 & -> & _ & _ & Hnv)].
  - left. split; [eauto|]. eexists _, _; reflexivity.
  - cbv zeta. set (bucket := top_bucket tx).
    unfold CreateBucketIfNotExists.
    destruct (String.eqb_spec (GetUUID patch) "") as [E|E].
    + left. split; [auto|]. eexists _, _; reflexivity.
    + unfold GetBucket, DeleteBucket.
      destruct (lookup (GetUUID patch) (entries bucket)) as [[v|c]|] eqn:Hl;
        simpl.
      * rewrite Hl. left. split; [eauto|]. eexists _, _; reflexivity.
      * rewrite lookup_remove. right. split; [|eexists; reflexivity].
        intros [[v Hv]|[?|[v Hv]]]; [now apply Hnv in Hv|contradiction|].
        discriminate.
      * rewrite Hl. right. split; [|eexists; reflexivity].
        intros [[v Hv]|[?|[v Hv]]]; [now apply Hnv in Hv|contradiction|].
        discriminate.
Qed.

(** C4 (as amended).  The worker skips a submitted patch if and only if it
    has zero operations, reports no error, and the last-had-error flag is
    false, and a skipped patch leaves the store as it was.  Every patch that
    is not skipped sets the flag to exactly this patch's error status and
    goes through the persist transaction: unless bbolt refuses the buckets
    (an empty uuid, or a name held by a plain value), the patch's record is
    in the store under its uuid afterwards; when it refuses, the database is
    as it was.  So a patch that follows one reporting an error is never
    skipped. *)
Theorem C4_persist_policy p patch :
  (skipped p patch = true <->
   Size patch = 0 /\ snd (HasErrors patch) = false /\
   lastHasErrors p = false) /\
  (skipped p patch = true -> persist p patch = Ret p) /\
  (skipped p patch = false ->
   exists p',
     persist p patch = Ret p' /\
     source p' = source p /\ target p' = target p /\
     lastHasErrors p' = snd (HasErrors patch) /\
     (~ refused (db p) patch ->
      exists bucket,
        GetBucket (db p') patchBucket = Some bucket /\
        GetBucket bucket (GetUUID patch) = Some (record_of patch)) /\
     (refused (db p) patch -> db p' = db p)) /\
  (forall p1 next,
     snd (HasErrors patch) = true -> persist p patch = Ret p1 ->
     skipped p1 next = false).
Proof.
  assert (Hrun : skipped p patch = false ->
     exists p',
       persist p patch = Ret p' /\
       source p' = source p /\ target p' = target p /\
       lastHasErrors p' = snd (HasErrors patch) /\
       (~ refused (db p) patch ->
        exists bucket,
          GetBucket (db p') patchBucket = Some bucket /\
          GetBucket bucket (GetUUID patch) = Some (record_of patch)) /\
       (refused (db p) patch -> db p' = db p)).
  { intros Hs. unfold persist, persist_with_error. rewrite Hs.
    cbn [db source target]. unfold Update.
    destruct (persistUpdate_cases patch (db p))
      as [(Hr & tx' & e0 & HU)|(Hn & tx' & HU)]; rewrite HU; simpl.
    - eexists. split; [reflexivity|]. simpl. repeat split; trivial.
      intros Hn. now destruct Hn.
    - eexists. split; [reflexivity|]. simpl. repeat split; trivial.
      + intros _. exact (persistUpdate_committed patch (db p) tx' HU).
      + intros Hr. now destruct Hn. }
  split; [apply skipped_iff|]. split; [|split; [exact Hrun|]].
  - intros Hs. unfold persist, persist_with_error. now rewrite Hs.
  - intros p1 next Hhas Hp.
    assert (Hs : skipped p patch = false).
    { destruct (skipped p patch) eqn:E; [|reflexivity].
      apply skipped_iff in E. destruct E as (_ & E & _). congruence. }
    destruct (Hrun Hs) as (p' & Hp' & _ & _ & Hflag & _).
    rewrite Hp' in Hp. injection Hp as <-.
    destruct (skipped p' next) eqn:E; [|reflexivity].
    apply skipped_iff in E. destruct E as (_ & _ & E). congruence.
Qed.

(** Of a patch's errors only the first reaches the store: after a committed
    [persist], the [patchError] entry of the bucket under the patch's uuid
    holds the first error, and is absent when the patch reports none; and
    the errors after the first change nothing in what [persist] does. *)
Theorem persist_first_error_only p patch p' :
  persist_with_error p patch = Ret (p', None) ->
  skipped p patch = false ->
  (exists bucket pb,
     GetBucket (db p') patchBucket = Some bucket /\
     GetBucket bucket (GetUUID patch) = Some pb /\
     Get pb patchErrKey = hd_error (errs patch)) /\
  forall e0 rest rest',
    errs patch = e0 :: rest ->
    persist_with_error p (with_errs (e0 :: rest') patch)
    = persist_with_error p patch.
Proof.
  intros Hp Hs. split.
  - destruct (persist_committed _ _ _ Hp Hs) as (_ & _ & bucket & Hb & Hpb).
    exists bucket, (record_of patch).
    split; [exact Hb|]. split; [exact Hpb|]. apply record_error.
  - intros e0 rest rest' He.
    unfold persist_with_error, skipped, HasErrors, Size.
    rewrite He. cbn [with_errs errs operations snd].
    destruct (_ && _ && _); [reflexivity|].
    cbn [db source target]. f_equal.
    assert (Hfn : forall tx, persistUpdate (with_errs (e0 :: rest') patch) tx
                             = persistUpdate patch tx).
    { intros tx. rewrite !persistUpdate_result.
      unfold record_of, stamp_bytes. rewrite He. reflexivity. }
    unfold Update. now rewrite Hfn.
Qed.

(** Patches with no operation and no error, sent to a store whose flag is
    clear, leave the store exactly as it was. *)
Theorem worker_quiet p sent :
  lastHasErrors p = false ->
  Forall (fun patch => operations patch = [] /\ errs patch = []) sent ->
  worker p sent = Ret p.
Proof.
  intros Hflag H. induction H as [|patch sent [Hops Herrs] _ IH];
    [reflexivity|].
  simpl. unfold persist, persist_with_error, skipped, HasErrors, Size.
  rewrite Hops, Herrs, Hflag. simpl. exact IH.
Qed.

End PersistMore.

(** ** What a reload gives back of a persisted patch *)

Definition has_percent (s : string) : bool :=
  existsb (Ascii.eqb "%") (list_ascii_of_string s).

Lemma fmt_Errorf_plain s : has_percent s = false -> fmt_Errorf s = s.
Proof.
  unfold fmt_Errorf, has_percent.
  induction s as [|c s IH]; cbn [list_ascii_of_string existsb doPrintf];
    [reflexivity|].
  intros H. apply orb_false_iff in H. destruct H as [Hc Hs].
  rewrite Ascii.eqb_sym in Hc. rewrite Hc. now rewrite IH.
Qed.

Section ReloadFacts.
Context {codec : Codec} {sorter : Sorter}.

(** Every patch [Load] returns under the uuid of a persisted patch (its
    transaction committed) carries: as its only error the first error of the
    original, passed through [fmt.Errorf] as a format, so unchanged when it
    has no percent sign, and no error when the original had none; the
    original's stamp when the time codec reads back what it wrote; and the
    configured endpoints in the original's direction, by the URI of the
    original's source. *)
Theorem persisted_patch_reload p patch p' now offset limit r q :
  persist_with_error p patch = Ret (p', None) ->
  skipped p patch = false ->
  Load p' now offset limit = Ret r -> In q (patches r) ->
  GetUUID q = GetUUID patch ->
  errs q = match errs patch with
           | e0 :: _ => [fmt_Errorf e0]
           | [] => []
           end /\
  (forall e0 rest,
      errs patch = e0 :: rest -> has_percent e0 = false -> errs q = [e0]) /\
  (forall b,
      time_MarshalJSON (GetStamp patch) = inl b ->
      time_UnmarshalJSON now b = inl (GetStamp patch) ->
      GetStamp q = GetStamp patch) /\
  (URI (Source patch) = URI (source p) ->
   Source q = source p /\ Target q = target p) /\
  (URI (Source patch) <> URI (source p) ->
   Source q = target p /\ Target q = source p).
Proof.
  intros Hp Hs HL Hq Hu.
  destruct (persist_committed _ _ _ Hp Hs) as (Es & Et & bucket & Hb & Hpb).
  destruct (Load_origin _ _ _ _ _ _ HL Hq)
    as (bucket' & pb' & ob' & ops' & lines' & Hb' & Hpb' & _ & _ & E).
  rewrite Hb in Hb'. injection Hb' as <-.
  rewrite Hu, Hpb in Hpb'. injection Hpb' as <-.
  assert (Herr : errs q = match errs patch with
                          | e0 :: _ => [fmt_Errorf e0]
                          | [] => []
                          end).
  { rewrite E. unfold loaded. cbn [errs]. rewrite record_error.
    now destruct (errs patch). }
  split; [exact Herr|]. split; [|split; [|split]].
  - intros e0 rest He Hplain. rewrite Herr, He.
    now rewrite fmt_Errorf_plain.
  - intros b Hm Hum. rewrite E. unfold loaded, stored_stamp. cbn [GetStamp].
    rewrite record_stamp. unfold stamp_bytes. now rewrite Hm, Hum.
  - intros HU. rewrite E. unfold loaded, inverted. cbn [Source Target].
    rewrite record_source, Es, Et, HU, String.eqb_refl. now split.
  - intros HU. rewrite E. unfold loaded, inverted. cbn [Source Target].
    rewrite record_source, Es, Et.
    apply String.eqb_neq in HU. rewrite HU. now split.
Qed.


(** A patch bucket without a [source] entry is loaded in the configured
    orientation: the roles are inverted only when an entry is there and
    differs. *)
Theorem missing_source_keeps_orientation p now offset limit r q bucket pb :
  Load p now offset limit = Ret r -> In q (patches r) ->
  GetBucket (db p) patchBucket = Some bucket ->
  GetBucket bucket (GetUUID q) = Some pb ->
  Get pb patchSourceKey = None ->
  Source q = source p /\ Target q = target p.
Proof.
  intros HL Hq Hb Hpb Hsrc.
  destruct (Load_origin _ _ _ _ _ _ HL Hq)
    as (bucket' & pb' & ob' & ops' & lines' & Hb' & Hpb' & _ & _ & E).
  rewrite Hb in Hb'. injection Hb' as <-.
  rewrite Hpb in Hpb'. injection Hpb' as <-.
  rewrite E. unfold loaded, inverted. cbn [Source Target].
  now rewrite Hsrc.
Qed.

End ReloadFacts.

(** ** Pruning *)

Lemma remove_filter k es :
  remove k es = filter (fun kv => negb (String.eqb k (fst kv))) es.
Proof.
  induction es as [|[k' e'] es IH]; simpl; [reflexivity|].
  destruct (String.eqb k k'); simpl; now rewrite IH.
Qed.

Lemma deleteBuckets_lookup bucket prunes log k :
  lookup k (entries (fst (deleteBuckets bucket prunes log)))
  = if existsb (String.eqb k) prunes
    then match lookup k (entries bucket) with
         | Some (Nested _) => None
         | other => other
         end
    else lookup k (entries bucket).
Proof.
  revert bucket log. induction prunes as [|uuid rest IH]; intros bucket log;
    [reflexivity|].
  cbn [deleteBuckets existsb]. unfold DeleteBucket.
  destruct (String.eqb_spec k uuid) as [->|Hne]; cbn [orb].
  - destruct (lookup uuid (entries bucket)) as [[v|c]|] eqn:Hl;
      rewrite IH; cbn [entries]; rewrite ?lookup_remove, ?Hl;
      now destruct (existsb _ rest).
  - destruct (lookup uuid (entries bucket)) as [[v|c]|] eqn:Hl;
      rewrite IH; cbn [entries]; rewrite ?lookup_remove_other by exact Hne;
      reflexivity.
Qed.

Lemma existsb_eqb_In k l : existsb (String.eqb k) l = true <-> In k l.
Proof.
  rewrite existsb_exists. split.
  - intros (x & Hx & E). apply String.eqb_eq in E. now subst.
  - intros H. exists k. split; [exact H|apply String.eqb_refl].
Qed.

Section PruneFacts.
Context {codec : Codec} {sorter : Sorter}.

(** The pruning transaction deletes the bucket of every uuid on its list, a
    uuid it cannot delete not stopping the others, and leaves every other key
    of the [patches] bucket and of the root as it was. *)
Theorem prune_deletes d prunes bucket :
  GetBucket d patchBucket = Some bucket ->
  exists d' bucket',
    prune prunes d = Ret d' /\
    GetBucket d' patchBucket = Some bucket' /\
    (forall k, In k prunes -> GetBucket bucket' k = None) /\
    (forall k, ~ In k prunes ->
               lookup k (entries bucket') = lookup k (entries bucket)) /\
    (forall k, k <> patchBucket ->
               lookup k (entries d') = lookup k (entries d)).
Proof.
  intros Hb. destruct prunes as [|uuid rest].
  - exists d, bucket. simpl. repeat split; trivial. contradiction.
  - set (prunes := uuid :: rest).
    exists (store d patchBucket (fst (deleteBuckets bucket prunes []))).
    exists (fst (deleteBuckets bucket prunes [])).
    split.
    { unfold prune, Update, pruneUpdate. fold prunes. rewrite Hb.
      destruct (deleteBuckets bucket prunes []). reflexivity. }
    split; [apply GetBucket_store|]. split; [|split].
    + intros k Hk. unfold GetBucket. rewrite deleteBuckets_lookup.
      apply existsb_eqb_In in Hk. rewrite Hk.
      now destruct (lookup k (entries bucket)) as [[v|c]|].
    + intros k Hk. rewrite deleteBuckets_lookup.
      destruct (existsb (String.eqb k) prunes) eqn:E; [|reflexivity].
      apply existsb_eqb_In in E. contradiction.
    + intros k Hk. now apply lookup_store_other.
Qed.

Lemma descending_split l n a b :
  descending l -> In a (firstn n l) -> In b (skipn n l) ->
  GetStamp b <= GetStamp a.
Proof.
  unfold descending. intros H. revert n.
  induction H as [|x l Hl IH Hx]; intros n Ha Hb.
  - rewrite firstn_nil in Ha. destruct Ha.
  - destruct n as [|n]; [destruct Ha|]. simpl in Ha, Hb.
    destruct Ha as [<-|Ha]; [|now apply (IH n)].
    rewrite Forall_forall in Hx. apply Hx.
    rewrite <- (firstn_skipn n l). apply in_or_app. now right.
Qed.

Lemma pruneList_skipn l : pruneList l = map GetUUID (skipn 100 l).
Proof.
  unfold pruneList.
  destruct (Z.ltb_spec 100 (Z.of_nat (List.length l))); [reflexivity|].
  rewrite skipn_all2 by lia. reflexivity.
Qed.

(** The prune list [Load] computes holds exactly the uuids of the patches
    after the 100 most recent by stamp: as many as there are patches beyond
    100, none when there are at most 100, and none of them more recent than
    a patch that is kept. *)
Theorem Load_prune_list p now offset limit stamps log :
  loadView p now (db p) = Ret ((stamps, log), None) ->
  exists r,
    Load p now offset limit = Ret r /\
    prunes r = map GetUUID (skipn 100 (sort_Sort Less stamps)) /\
    List.length (prunes r) = (List.length stamps - 100)%nat /\
    forall a b,
      In a (firstn 100 (sort_Sort Less stamps)) ->
      In b (skipn 100 (sort_Sort Less stamps)) ->
      GetStamp b <= GetStamp a.
Proof.
  intros Hv. eexists. split; [apply (Load_of_view _ _ _ _ _ _ Hv)|].
  cbn [prunes].
  pose proof (Permutation_length (sort_Sort_perm _ Less stamps)) as Hlen.
  rewrite pruneList_skipn. split; [reflexivity|]. split.
  - rewrite length_map, length_skipn. lia.
  - intros a b. apply descending_split, sort_descending.
Qed.

End PruneFacts.

Lemma lookup_In k e es : lookup k es = Some e -> In (k, e) es.
Proof.
  induction es as [|[k' e'] es IH]; simpl; [discriminate|].
  destruct (String.eqb_spec k k') as [->|Hne].
  - intros [= ->]. now left.
  - intros H. right. now apply IH.
Qed.

Lemma lookup_NoDup k e es :
  NoDup (map fst es) -> In (k, e) es -> lookup k es = Some e.
Proof.
  induction es as [|[k' e'] es IH]; simpl; [contradiction|].
  intros Hnd [[= -> ->]|Hin].
  - now rewrite String.eqb_refl.
  - inversion Hnd as [|? ? Hnotin Hnd']; subst.
    destruct (String.eqb_spec k k') as [->|Hne]; [|now apply IH].
    exfalso. apply Hnotin. apply (in_map fst) in Hin. exact Hin.
Qed.

Lemma lookup_None_filter k es :
  lookup k es = None ->
  filter (fun kv => negb (String.eqb k (fst kv))) es = es.
Proof.
  induction es as [|[k' e'] es IH]; simpl; [reflexivity|].
  destruct (String.eqb k k'); [discriminate|]. simpl.
  intros H. now rewrite IH.
Qed.

(** On a bucket holding nested buckets only, the deletions leave exactly the
    entries whose key is not on the list. *)
Lemma deleteBuckets_entries bucket prunes log :
  Forall (fun kv => exists c, snd kv = Nested c) (entries bucket) ->
  entries (fst (deleteBuckets bucket prunes log))
  = filter (fun kv => negb (existsb (String.eqb (fst kv)) prunes))
           (entries bucket).
Proof.
  revert bucket log. induction prunes as [|uuid rest IH]; intros bucket log Hn.
  - simpl. clear Hn. induction (entries bucket) as [|kv es IHes];
      [reflexivity|]. simpl. now rewrite <- IHes.
  - cbn [deleteBuckets]. unfold DeleteBucket.
    assert (Hstep : forall es : list (string * Entry),
              filter (fun kv => negb (existsb (String.eqb (fst kv)) rest))
                     (filter (fun kv => negb (String.eqb uuid (fst kv))) es)
              = filter (fun kv => negb (existsb (String.eqb (fst kv))
                                                (uuid :: rest))) es).
    { induction es as [|[k e] es IHes]; [reflexivity|]. simpl.
      rewrite (String.eqb_sym k uuid).
      destruct (String.eqb uuid k); simpl; rewrite IHes; reflexivity. }
    destruct (lookup uuid (entries bucket)) as [[v|c]|] eqn:Hl.
    + apply lookup_In in Hl. rewrite Forall_forall in Hn.
      destruct (Hn _ Hl) as [c Hc]. discriminate Hc.
    + rewrite IH.
      * cbn [entries]. rewrite remove_filter. apply Hstep.
      * cbn [entries]. rewrite remove_filter.
        rewrite Forall_forall in *. intros kv Hkv.
        apply filter_In in Hkv. now apply Hn.
    + rewrite IH by exact Hn. rewrite <- Hstep.
      now rewrite (lookup_None_filter _ _ Hl).
Qed.

Lemma NoDup_app_disjoint {A} (l1 l2 : list A) a :
  NoDup (l1 ++ l2) -> In a l1 -> In a l2 -> False.
Proof.
  induction l1 as [|x l1 IH]; simpl; [tauto|].
  intros Hnd [->|H1] H2; inversion Hnd as [|? ? Hnotin Hnd']; subst.
  - apply Hnotin. apply in_or_app. now right.
  - now apply IH.
Qed.

Section RetentionFacts.
Context {codec : Codec} {sorter : Sorter}.

(** Retention.  On a store whose patches load, with one bucket per uuid: once
    the pruning that [Load] triggers has run on the store as [Load] saw it,
    the [patches] bucket holds exactly the buckets of the 100 most recent
    patches by stamp, all of them when there were at most 100. *)
Theorem Load_then_prune_retains p now offset limit stamps log bucket :
  GetBucket (db p) patchBucket = Some bucket ->
  NoDup (map fst (entries bucket)) ->
  loadView p now (db p) = Ret ((stamps, log), None) ->
  exists r d' bucket',
    Load p now offset limit = Ret r /\
    prune (prunes r) (db p) = Ret d' /\
    GetBucket d' patchBucket = Some bucket' /\
    Permutation (map fst (entries bucket'))
                (map GetUUID (firstn 100 (sort_Sort Less stamps))) /\
    List.length (entries bucket') = Nat.min (List.length stamps) 100.
Proof.
  intros Hb Hnd Hv.
  pose proof (Load_of_view p now offset limit stamps log Hv) as HL.
  set (r := MkLoadResult _ _ _ _) in HL.
  assert (Hpr : prunes r = map GetUUID (skipn 100 (sort_Sort Less stamps)))
    by apply pruneList_skipn.
  set (sorted := sort_Sort Less stamps) in *.
  set (A := map GetUUID (firstn 100 sorted)).
  set (B := map GetUUID (skipn 100 sorted)) in *.
  assert (Hkeys : map GetUUID stamps = map fst (entries bucket)).
  { clear - Hb Hv. unfold loadView in Hv. rewrite Hb in Hv.
    destruct (loadPatches _ _ _ _ _ _) as [[st lg]|] eqn:HP; [|discriminate].
    simpl in Hv. injection Hv as -> ->.
    rewrite <- cursor_keys. exact (loadPatches_uuids _ _ _ _ _ _ HP). }
  assert (Hperm : Permutation (map fst (entries bucket)) (A ++ B)).
  { rewrite <- Hkeys. unfold A, B. rewrite <- map_app, firstn_skipn.
    apply Permutation_map, sort_Sort_perm. }
  assert (HndAB : NoDup (A ++ B)) by (eapply Permutation_NoDup; eassumption).
  (* every entry is a nested bucket *)
  assert (Hnested : Forall (fun kv => exists c, snd kv = Nested c)
                           (entries bucket)).
  { rewrite Forall_forall. intros [k e] Hin.
    destruct (Load_rebuilds_all p now offset limit r bucket k Hb HL)
      as (q & lines & Hq).
    { apply (in_map fst) in Hin. exact Hin. }
    apply loadPatch_inv in Hq. destruct Hq as (pb & _ & _ & Hpb & _).
    unfold GetBucket in Hpb. rewrite (lookup_NoDup _ _ _ Hnd Hin) in Hpb.
    destruct e as [v|c]; [discriminate|]. now exists c. }
  (* the bucket after the prune *)
  assert (Hprune : exists d' bucket',
            prune (prunes r) (db p) = Ret d' /\
            GetBucket d' patchBucket = Some bucket' /\
            entries bucket'
            = filter (fun kv => negb (existsb (String.eqb (fst kv)) B))
                     (entries bucket)).
  { rewrite Hpr. destruct B as [|uuid rest] eqn:EB.
    - exists (db p), bucket. split; [reflexivity|]. split; [exact Hb|].
      clear. induction (entries bucket) as [|kv es IH]; [reflexivity|].
      simpl. f_equal. exact IH.
    - exists (store (db p) patchBucket
                (fst (deleteBuckets bucket (uuid :: rest) []))).
      eexists. split.
      + unfold prune, Update, pruneUpdate. rewrite Hb.
        destruct (deleteBuckets bucket (uuid :: rest) []). reflexivity.
      + split; [apply GetBucket_store|].
        now apply deleteBuckets_entries. }
  destruct Hprune as (d' & bucket' & Hp & Hb' & He).
  assert (Hkeys' : Permutation (map fst (entries bucket')) A).
  { apply NoDup_Permutation.
    - rewrite He. clear - Hnd.
      induction (entries bucket) as [|[k e] es IH]; [constructor|].
      simpl in *. inversion Hnd as [|? ? Hnotin Hnd']; subst.
      destruct (existsb _ B); simpl; [now apply IH|].
      constructor; [|now apply IH].
      intros Hin. apply Hnotin. apply in_map_iff in Hin.
      destruct Hin as ([k' e'] & <- & Hin). apply filter_In in Hin.
      destruct Hin as [Hin _]. apply (in_map fst) in Hin. exact Hin.
    - now apply NoDup_app_remove_r in HndAB.
    - intros k. rewrite He. split.
      + intros Hin. apply in_map_iff in Hin.
        destruct Hin as ([k' e'] & <- & Hin). apply filter_In in Hin.
        destruct Hin as [Hin Hnot]. simpl in *.
        apply (in_map fst) in Hin. simpl in Hin.
        apply (Permutation_in _ Hperm) in Hin.
        apply in_app_or in Hin. destruct Hin as [Hin|Hin]; [exact Hin|].
        apply existsb_eqb_In in Hin. rewrite Hin in Hnot. discriminate.
      + intros Hin.
        assert (Hk : In k (map fst (entries bucket))).
        { apply (Permutation_in _ (Permutation_sym Hperm)).
          apply in_or_app. now left. }
        apply in_map_iff in Hk. destruct Hk as ([k' e'] & <- & Hk).
        apply in_map_iff. exists (k', e'). split; [reflexivity|].
        apply filter_In. split; [exact Hk|]. simpl in *.
        destruct (existsb (String.eqb k') B) eqn:E; [|reflexivity].
        apply existsb_eqb_In in E. exfalso.
        exact (NoDup_app_disjoint A B k' HndAB Hin E). }
  exists r, d', bucket'. split; [exact HL|]. split; [exact Hp|].
  split; [exact Hb'|]. split; [exact Hkeys'|].
  rewrite <- (length_map fst), (Permutation_length Hkeys').
  unfold A. rewrite length_map, length_firstn. unfold sorted.
  rewrite <- (Permutation_length (sort_Sort_perm _ Less stamps)). lia.
Qed.

End RetentionFacts.

(** ** Operation records: what is dropped, what panics *)

Section RecordFacts.
Context {codec : Codec} {sorter : Sorter}.

(** A record that fails to decode as an operation changes nothing in the
    patch that is rebuilt: the operations loaded are those loaded without the
    record, in the same order. *)
Theorem undecodable_record_dropped pre k v post err patch log q log1 :
  op_Unmarshal v = inr err ->
  loadOperations (pre ++ post) patch log = Ret (q, log1) ->
  exists log2,
    loadOperations (pre ++ (k, Some v) :: post) patch log = Ret (q, log2).
Proof.
  intros Hv. rewrite !loadOperations_decode.
  assert (H : forall ops lines,
            decodeOps (pre ++ post) = Ret (ops, lines) ->
            exists lines',
              decodeOps (pre ++ (k, Some v) :: post) = Ret (ops, lines')).
  { induction pre as [|[k0 [v0|]] pre IH]; intros ops lines; simpl.
    - rewrite Hv. intros ->. simpl. eauto.
    - destruct (op_Unmarshal v0) as [op|e0].
      + destruct (unmarshalConflict v0 op) as [res|]; simpl; [|discriminate].
        destruct (decodeOps (pre ++ post)) as [[ops0 lines0]|] eqn:Hd;
          simpl; [|discriminate].
        destruct (IH _ _ eq_refl) as (lines' & ->). simpl.
        destruct res; intros [= <- <-]; eauto.
      + destruct (decodeOps (pre ++ post)) as [[ops0 lines0]|] eqn:Hd;
          simpl; [|discriminate].
        destruct (IH _ _ eq_refl) as (lines' & ->). simpl.
        intros [= <- <-]. eauto.
    - intros [= <- <-]. eauto. }
  destruct (decodeOps (pre ++ post)) as [[ops lines]|] eqn:Hd;
    simpl; [|discriminate].
  intros [= <- <-]. destruct (H _ _ eq_refl) as (lines' & ->). simpl. eauto.
Qed.

(** A rebuilt conflict keeps the node of the stored operation and takes its
    classification and its two sides from the three fields of the record;
    an operation of another kind comes back as it was decoded. *)
Theorem unmarshalConflict_result data o res :
  unmarshalConflict data (Some o) = Ret (inl res) ->
  (Type_ o <> OpConflict /\ res = Some o) \/
  (Type_ o = OpConflict /\
   exists ii cType l r lo ro,
     json_Unmarshal_map data = inl ii /\
     index "ConflictType" ii = Some (JNumber cType) /\
     index "LeftOp" ii = Some l /\ index "RightOp" ii = Some r /\
     op_Unmarshal (json_Marshal l) = inl lo /\
     op_Unmarshal (json_Marshal r) = inl ro /\
     res = Some (ConflictOperation (GetNode o) cType lo ro)).
Proof.
  unfold unmarshalConflict.
  destruct (Type_ o) eqn:Ht; simpl;
    try (intros [= <-]; left; split; [discriminate|reflexivity]).
  destruct (json_Unmarshal_map data) as [ii|e0]; [|discriminate].
  destruct (index "ConflictType" ii) as [[| |cType| | |]|] eqn:Hc;
    try discriminate.
  destruct (index "LeftOp" ii) as [l|] eqn:Hil; [|discriminate].
  destruct (op_Unmarshal (json_Marshal l)) as [lo|e1] eqn:Hl; [|discriminate].
  destruct (index "RightOp" ii) as [r|] eqn:Hir; [|discriminate].
  destruct (op_Unmarshal (json_Marshal r)) as [ro|e2] eqn:Hr; [|discriminate].
  intros [= <-]. right. split; [reflexivity|].
  exists ii, cType, l, r, lo, ro. repeat split; trivial.
Qed.

(** An operation record on which [unmarshalConflict] panics: one that decodes
    to a [nil] operation, or one tagged as a conflict whose [ConflictType] is
    present and is not a number. *)
Definition panicking_record (v : string) : Prop :=
  op_Unmarshal v = inl None \/
  exists o ii t,
    op_Unmarshal v = inl (Some o) /\ Type_ o = OpConflict /\
    json_Unmarshal_map v = inl ii /\
    index "ConflictType" ii = Some t /\ forall n, t <> JNumber n.

Lemma panicking_record_panics v :
  panicking_record v ->
  exists op, op_Unmarshal v = inl op /\ unmarshalConflict v op = Panic.
Proof.
  intros [H|(o & ii & t & Ho & Ht & Hii & Hidx & Hnum)].
  - now exists None.
  - exists (Some o). split; [exact Ho|].
    unfold unmarshalConflict. rewrite Ht, Hii, Hidx. simpl.
    destruct t; try reflexivity. now destruct (Hnum n).
Qed.

Lemma decodeOps_panic pre k v post :
  Forall (fun kv => snd kv <> None) pre ->
  panicking_record v ->
  decodeOps (pre ++ (k, Some v) :: post) = Panic.
Proof.
  intros Hpre Hv. apply panicking_record_panics in Hv.
  destruct Hv as (op & Hop & Hpanic).
  induction Hpre as [|[k0 [v0|]] pre Hne _ IH]; simpl.
  - now rewrite Hop, Hpanic.
  - rewrite IH. destruct (op_Unmarshal v0) as [op0|e0]; [|reflexivity].
    now destruct (unmarshalConflict v0 op0).
  - now destruct Hne.
Qed.

(** One such record among the operation records of any stored patch makes
    every [Load] panic, whatever page is asked for. *)
Theorem Load_panics_on_record p now offset limit bucket k pb ob pre key v post :
  GetBucket (db p) patchBucket = Some bucket ->
  In k (map fst (entries bucket)) ->
  GetBucket bucket k = Some pb ->
  GetBucket pb opsKey = Some ob ->
  cursor ob = (pre ++ (key, Some v) :: post)%list ->
  Forall (fun kv => snd kv <> None) pre ->
  panicking_record v ->
  Load p now offset limit = Panic.
Proof.
  intros Hb Hk Hpb Hob Hc Hpre Hv.
  destruct (Load p now offset limit) as [r|] eqn:HL; [|reflexivity].
  exfalso.
  destruct (Load_rebuilds_all p now offset limit r bucket k Hb HL Hk)
    as (q & lines & Hq).
  apply loadPatch_inv in Hq.
  destruct Hq as (pb' & ob' & ops & Hpb' & Hob' & Hd & _).
  rewrite Hpb in Hpb'. injection Hpb' as <-.
  rewrite Hob in Hob'. injection Hob' as <-.
  rewrite Hc, decodeOps_panic in Hd by assumption. discriminate.
Qed.

End RecordFacts.

(** * The command line entry point ([cmd/pydio-sync/main.go]) *)

Module PydioSync.

Section Main.
(** [net/url]: the parsed form is opaque here. *)
Variable URL : Type.
Variable url_Parse : string -> URL + error.

(** [errors.Wrapf(err, "could not parse %s", a)], seen through [Error()]. *)
Definition could_not_parse (err : error) (a : string) : error :=
  "could not parse " ++ a ++ ": " ++ err.

(** [parseURL]: the arguments parsed in order, or the wrapped error of the
    first one that does not parse. *)
Fixpoint parseURL (args : list string) : list URL + error :=
  match args with
  | [] => inl []
  | a :: rest =>
      match url_Parse a with
      | inr err => inr (could_not_parse err a)
      | inl u =>
          match parseURL rest with
          | inl urls => inl (u :: urls)
          | inr e => inr e
          end
      end
  end.

(** [sync.Target], an interface value: [None] is [nil]. *)
Variable Target : Type.

(** How [main] goes on after reading its arguments: [log.Fatalf] and
    [log.Fatal] end the process with a message, otherwise the job is built
    by [sync.New] on the targets [targ] and started. *)
Inductive start : Type :=
| Fatal (msg : string)
| Serve (targ : list (option Target)).

Definition main (args : list string) : start :=
  if negb (Nat.eqb (List.length args) 2) then
    (* Restrict to two targets until we implement K-way merging *)
    Fatal ("expected two sync targets, got "
           ++ NilZero.string_of_uint (Nat.to_uint (List.length args)))
  else
    match parseURL args with
    | inr err => Fatal err
    | inl urls =>
        (* targ := make([]sync.Target, len(urls)): the loop that would fill
           it is commented out, so every target is nil *)
        Serve (repeat None (List.length urls))
    end.

(** [parseURL] succeeds exactly when every argument parses, and then returns
    the parsed forms one per argument, in the order of the arguments. *)
Theorem parseURL_ok args urls :
  parseURL args = inl urls <->
  Forall2 (fun a u => url_Parse a = inl u) args urls.
Proof.
  revert urls. induction args as [|a rest IH]; intros urls; simpl.
  - split.
    + intros [= <-]. constructor.
    + intros H. inversion H. reflexivity.
  - destruct (url_Parse a) as [u|err] eqn:Ha.
    + destruct (parseURL rest) as [us|e] eqn:Hr.
      * split.
        -- intros [= <-]. constructor; [exact Ha|]. now apply IH.
        -- intros H. inversion H as [|? u' ? us' Hu Hrest]; subst.
           rewrite Ha in Hu. injection Hu as <-.
           apply IH in Hrest. now injection Hrest as <-.
      * split; [discriminate|].
        intros H. inversion H as [|? u' ? us' Hu Hrest]; subst.
        apply IH in Hrest. discriminate.
    + split; [discriminate|].
      intros H. inversion H as [|? u' ? us' Hu Hrest]; subst.
      rewrite Ha in Hu. discriminate.
Qed.

(** [parseURL] fails exactly on the first argument that does not parse, and
    its error names that argument and wraps the parser's error. *)
Theorem parseURL_error args e :
  parseURL args = inr e <->
  exists pre a post err,
    args = (pre ++ a :: post)%list /\
    Forall (fun x => exists u, url_Parse x = inl u) pre /\
    url_Parse a = inr err /\
    e = could_not_parse err a.
Proof.
  revert e. induction args as [|a rest IH]; intros e; simpl.
  - split; [discriminate|].
    intros (pre & a & post & err & H & _). now destruct pre.
  - destruct (url_Parse a) as [u|err] eqn:Ha.
    + destruct (parseURL rest) as [us|e'] eqn:Hr.
      * split; [discriminate|].
        intros (pre & a' & post & err & H & Hpre & Ha' & ->).
        destruct pre as [|x pre]; simpl in H; injection H as -> ->.
        -- rewrite Ha in Ha'. discriminate.
        -- inversion Hpre; subst.
           assert (Hr' : inl us = inr (could_not_parse err a'))
             by (apply IH; eauto 8).
           discriminate.
      * split.
        -- intros [= <-]. destruct (proj1 (IH e') eq_refl)
             as (pre & a' & post & err & -> & Hpre & Ha' & ->).
           exists (a :: pre), a', post, err. repeat split; trivial.
           constructor; eauto.
        -- intros (pre & a' & post & err & H & Hpre & Ha' & ->).
           destruct pre as [|x pre]; simpl in H; injection H as -> ->.
           ++ rewrite Ha in Ha'. discriminate.
           ++ inversion Hpre; subst. f_equal. symmetry.
              assert (Hr' : inr e' = inr (could_not_parse err a'))
                by (apply IH; eauto 8).
              now injection Hr'.
    + split.
      * intros [= <-]. exists [], a, rest, err. repeat split; trivial.
      * intros (pre & a' & post & err' & H & Hpre & Ha' & ->).
        destruct pre as [|x pre]; simpl in H; injection H as -> ->.
        -- rewrite Ha in Ha'. now injection Ha' as <-.
        -- inversion Hpre as [|? ? [u Hu] _]; subst.
           rewrite Ha in Hu. discriminate.
Qed.

(** [main] starts the job only on exactly two arguments that both parse, and
    then on two [nil] targets: the parsed forms are used for their count
    alone.  In every other case it ends with a fatal message. *)
Theorem main_serves_iff args targ :
  main args = Serve targ <->
  exists a b ua ub,
    args = [a; b] /\
    url_Parse a = inl ua /\ url_Parse b = inl ub /\
    targ = [None; None].
Proof.
  unfold main. split.
  - destruct args as [|a [|b [|c rest]]]; simpl; try discriminate.
    destruct (url_Parse a) as [ua|] eqn:Ha; [|discriminate].
    destruct (url_Parse b) as [ub|] eqn:Hb; [|discriminate].
    simpl. intros [= <-]. now exists a, b, ua, ub.
  - intros (a & b & ua & ub & -> & Ha & Hb & ->). simpl.
    now rewrite Ha, Hb.
Qed.

End Main.
End PydioSync.

(** * Instances of the further properties *)

Section MoreExamples.
Existing Instance Demo.codec.
Existing Instance Demo.sorter.

Definition three_ops : Patch :=
  Demo.patch_at "u1" 10 [Demo.op_a; Demo.op_b; Demo.op_c] [].

Definition two_errors : Patch :=
  Demo.patch_at "e1" 10 [Demo.op_a] ["disk full"; "second"].

(** A store holding a patch one of whose operation records is [null]. *)
Definition null_record : PatchStore :=
  Demo.after Demo.store0 [Demo.patch_at "n1" 10 [Demo.op_a; None] []].

Ltac compute_eq := vm_compute; reflexivity.

Lemma itob_compare_witness :
  String.compare (itob 255) (itob 256) = (255 ?= 256) /\
  (itob 255 = itob 256 -> 255 = 256).
Proof. apply itob_compare; int_bounds. Defined.

Lemma persisted_operation_keys_witness :
  exists bucket pb ob,
    GetBucket (db (Demo.after Demo.store0 [three_ops])) patchBucket
    = Some bucket /\
    GetBucket bucket "u1" = Some pb /\
    GetBucket pb opsKey = Some ob /\
    entries ob = numbered 1 (marshalled (operations three_ops)) /\
    sequence ob = Z.of_nat (List.length (marshalled (operations three_ops))) /\
    StronglySorted (fun a b => String.compare (fst a) (fst b) = Lt)
                   (entries ob).
Proof.
  apply (persisted_operation_keys Demo.store0 three_ops);
    [compute_eq|reflexivity|compute_eq].
Defined.

Lemma operations_round_trip_witness :
  exists bucket,
    GetBucket (db (Demo.after Demo.store0 [three_ops])) patchBucket
    = Some bucket /\
    (exists q,
       loadPatch (Demo.after Demo.store0 [three_ops]) 1000 bucket "u1"
       = Ret (q, []) /\
       operations q = [Demo.op_a; Demo.op_b; Demo.op_c]) /\
    (forall offset limit r q,
       Load (Demo.after Demo.store0 [three_ops]) 1000 offset limit = Ret r ->
       In q (patches r) -> GetUUID q = "u1" ->
       operations q = [Demo.op_a; Demo.op_b; Demo.op_c]).
Proof.
  apply (operations_round_trip Demo.store0 three_ops);
    try reflexivity; try compute_eq.
  repeat constructor; eexists; repeat split; compute_eq.
Defined.

Lemma Load_page_contiguous_witness :
  exists r,
    Load Demo.four 1000 1 2 = Ret r /\ List.length (patches r) = 2%nat.
Proof.
  edestruct (Load_page_contiguous Demo.four 1000 1 2) as (r & HL & Hp);
    [compute_eq|].
  exists r. split; [exact HL|]. rewrite Hp. compute_eq.
Defined.

Lemma Load_negative_offset_witness :
  exists r,
    Load Demo.four 1000 (-1) 3 = Ret r /\
    map GetUUID (patches r) = ["u2"; "u1"].
Proof.
  edestruct (Load_negative_offset Demo.four 1000 (-1) 3) as (r & HL & Hp);
    [compute_eq|lia|int_bounds|].
  exists r. split; [exact HL|]. rewrite Hp. compute_eq.
Defined.

Lemma Load_pages_compose_witness :
  exists r1 r2 r,
    Load Demo.four 1000 0 2 = Ret r1 /\
    Load Demo.four 1000 (0 + 2) 2 = Ret r2 /\
    Load Demo.four 1000 0 (2 + 2) = Ret r /\
    patches r = (patches r1 ++ patches r2)%list.
Proof.
  eapply (Load_pages_compose Demo.four 1000 0 2 2);
    [compute_eq|int_bounds..].
Defined.

Lemma Load_without_bucket_witness :
  Load Demo.store0 1000 0 10 = Ret (MkLoadResult [] None [] []).
Proof. apply Load_without_bucket. reflexivity. Defined.

Lemma loadView_uuids_witness :
  exists stamps log,
    loadView Demo.four 1000 (db Demo.four) = Ret ((stamps, log), None) /\
    map GetUUID stamps = map fst (entries (top_bucket (db Demo.four))).
Proof.
  eexists. eexists. split; [compute_eq|].
  eapply (loadView_uuids Demo.four 1000); compute_eq.
Defined.

Lemma Load_returns_iff_witness :
  (exists r, Load Demo.four 1000 0 1 = Ret r) <->
  (forall k, In k (map fst (entries (top_bucket (db Demo.four)))) ->
             exists q lines,
               loadPatch Demo.four 1000 (top_bucket (db Demo.four)) k
               = Ret (q, lines)).
Proof. apply Load_returns_iff. compute_eq. Defined.

Lemma NewPatchStore_seed_witness :
  NewPatchStore (db Demo.four) Demo.local Demo.remote 1000
  = Ret (MkPatchStore Demo.local Demo.remote (db Demo.four) true).
Proof.
  edestruct (NewPatchStore_seed (db Demo.four) Demo.local Demo.remote 1000)
    as [H _]; [compute_eq|].
  rewrite H. compute_eq.
Defined.

Lemma persistUpdate_replaces_witness :
  exists tx' bucket',
    persistUpdate (Demo.patch_at "u1" 99 [Demo.op_c] []) (db Demo.four)
    = Ret (tx', None) /\
    GetBucket tx' patchBucket = Some bucket' /\
    GetBucket bucket' "u1"
    = Some (record_of (Demo.patch_at "u1" 99 [Demo.op_c] [])) /\
    (forall k, k <> "u1" ->
               lookup k (entries bucket')
               = lookup k (entries (top_bucket (db Demo.four)))).
Proof.
  eexists.
  edestruct (persistUpdate_replaces (Demo.patch_at "u1" 99 [Demo.op_c] [])
               (db Demo.four)) as (bucket' & H1 & H2 & H3 & _);
    [compute_eq|].
  exists bucket'. split; [compute_eq|]. split; [exact H1|].
  split; [exact H2|exact H3].
Defined.

Lemma worker_quiet_witness :
  worker Demo.store0 [Demo.patch_at "q1" 1 [] []; Demo.patch_at "q2" 2 [] []]
  = Ret Demo.store0.
Proof.
  apply worker_quiet; [reflexivity|].
  repeat constructor.
Defined.

Lemma persisted_patch_reload_witness :
  exists r q,
    Load (Demo.after Demo.store0 [two_errors]) 1000 0 10 = Ret r /\
    In q (patches r) /\
    errs q = ["disk full"] /\ GetStamp q = 10 /\
    Source q = Demo.local /\ Target q = Demo.remote.
Proof.
  eexists. eexists. split; [compute_eq|].
  match goal with
  | |- In ?q (patches ?r) /\ _ =>
      assert (HL : Load (Demo.after Demo.store0 [two_errors]) 1000 0 10 = Ret r)
        by compute_eq;
      assert (Hin : In q (patches r)) by (left; reflexivity)
  end.
  split; [exact Hin|].
  assert (Hp : persist_with_error Demo.store0 two_errors
               = Ret (Demo.after Demo.store0 [two_errors], None))
    by compute_eq.
  destruct (persisted_patch_reload Demo.store0 two_errors _ 1000 0 10 _ _
              Hp eq_refl HL Hin eq_refl)
    as (_ & Herr & Hstamp & Hsame & _).
  split; [apply (Herr "disk full" ["second"]); reflexivity|].
  split; [eapply Hstamp; compute_eq|].
  apply Hsame. reflexivity.
Defined.

Lemma prune_deletes_witness :
  exists d' bucket',
    prune ["u3"; "nope"] (db Demo.four) = Ret d' /\
    GetBucket d' patchBucket = Some bucket' /\
    GetBucket bucket' "u3" = None /\
    lookup "u1" (entries bucket')
    = lookup "u1" (entries (top_bucket (db Demo.four))).
Proof.
  edestruct (prune_deletes (db Demo.four) ["u3"; "nope"])
    as (d' & bucket' & H1 & H2 & H3 & H4 & _); [compute_eq|].
  exists d', bucket'. split; [exact H1|]. split; [exact H2|]. split.
  - apply H3. now left.
  - apply H4. intros [H|[H|[]]]; discriminate H.
Defined.

Lemma Load_prune_list_witness :
  exists r,
    Load Demo.four 1000 0 10 = Ret r /\ prunes r = [].
Proof.
  edestruct (Load_prune_list Demo.four 1000 0 10) as (r & HL & Hp & _);
    [compute_eq|].
  exists r. split; [exact HL|]. rewrite Hp. compute_eq.
Defined.

Lemma Load_then_prune_retains_witness :
  exists r d' bucket',
    Load Demo.four 1000 0 10 = Ret r /\
    prune (prunes r) (db Demo.four) = Ret d' /\
    GetBucket d' patchBucket = Some bucket' /\
    List.length (entries bucket') = 4%nat.
Proof.
  edestruct (Load_then_prune_retains Demo.four 1000 0 10)
    as (r & d' & bucket' & H1 & H2 & H3 & _ & H5).
  - compute_eq.
  - vm_compute. repeat constructor; simpl; intuition discriminate.
  - compute_eq.
  - exists r, d', bucket'. repeat split; trivial.
Defined.

Lemma undecodable_record_dropped_witness :
  exists log2,
    loadOperations [("k1", Some "C/a"); ("k2", Some "?"); ("k3", Some "D/c")]
      (NewPatch Demo.local Demo.remote 1000) []
    = Ret (Demo.patch_at "" 1000 [Demo.op_a; Demo.op_c] [], log2).
Proof.
  apply (undecodable_record_dropped [("k1", Some "C/a")] "k2" "?"
           [("k3", Some "D/c")] "invalid operation" _ _ _ []);
    compute_eq.
Defined.

Lemma unmarshalConflict_result_witness :
  exists res,
    unmarshalConflict Demo.full_conflict
      (Some (PatchOperation OpConflict "/both")) = Ret (inl res) /\
    res = Some (ConflictOperation "/both" 1
                  (Some (PatchOperation OpUpdate "/both"))
                  (Some (PatchOperation OpDelete "/both"))).
Proof.
  eexists. split; [compute_eq|].
  match goal with
  | |- ?res = _ =>
      assert (H0 : unmarshalConflict Demo.full_conflict
                     (Some (PatchOperation OpConflict "/both"))
                   = Ret (inl res)) by compute_eq
  end.
  destruct (unmarshalConflict_result _ _ _ H0)
    as [[H _]|(_ & ii & cType & l & r & lo & ro & Hii & Hc & Hl & Hr &
               Hlo & Hro & E)].
  - now destruct H.
  - reflexivity.
Defined.

Lemma Load_panics_on_record_witness :
  Load null_record 1000 0 10 = Panic.
Proof.
  eapply (Load_panics_on_record null_record 1000 0 10 _ "n1" _ _
            [(itob 1, Some "C/a")] (itob 2) "null" []).
  - compute_eq.
  - left. reflexivity.
  - compute_eq.
  - compute_eq.
  - compute_eq.
  - repeat constructor. discriminate.
  - left. reflexivity.
Defined.


(** A store whose only patch bucket has a stamp and operations and no
    [source] entry. *)
Definition sourceless : PatchStore :=
  MkPatchStore Demo.local Demo.remote
    (store empty patchBucket
       (store empty "m1"
          (store (fst (Put empty timeKey (itob 5))) opsKey empty)))
    false.

Lemma missing_source_keeps_orientation_witness :
  exists r q,
    Load sourceless 1000 0 10 = Ret r /\ In q (patches r) /\
    Source q = Demo.local /\ Target q = Demo.remote.
Proof.
  eexists. eexists. split; [compute_eq|].
  match goal with
  | |- In ?q (patches ?r) /\ _ =>
      assert (HL : Load sourceless 1000 0 10 = Ret r) by compute_eq;
      assert (Hin : In q (patches r)) by (left; reflexivity)
  end.
  split; [exact Hin|].
  eapply (missing_source_keeps_orientation sourceless 1000 0 10 _ _ _ _
            HL Hin); compute_eq.
Defined.

(** Retention at work: 101 patches with the stamps 1 to 101 are persisted;
    [Load] leaves one uuid to prune, that of the oldest patch, and the prune
    leaves 100 buckets. *)
Definition hundred_and_one : PatchStore :=
  Demo.after Demo.store0
    (map (fun i => Demo.patch_at (itob (Z.of_nat i)) (Z.of_nat i)
                     [Demo.op_a] [])
         (seq 1 101)).

Example retention_101 :
  exists r d' bucket',
    Load hundred_and_one 1000 0 1 = Ret r /\
    prunes r = [itob 1] /\
    prune (prunes r) (db hundred_and_one) = Ret d' /\
    GetBucket d' patchBucket = Some bucket' /\
    List.length (entries (top_bucket (db hundred_and_one))) = 101%nat /\
    List.length (entries bucket') = 100%nat /\
    GetBucket bucket' (itob 1) = None.
Proof.
  eexists. eexists. eexists.
  split; [compute_eq|]. split; [compute_eq|]. split; [compute_eq|].
  split; [compute_eq|]. repeat split; compute_eq.
Qed.

(** A patch with no operation and no error that follows a failed one, and
    has no uuid. *)
Definition unnamed_recovery : Patch := Demo.patch_at "" 40 [] [].

Lemma C4_persist_policy_witness :
  exists p' bucket,
    persist Demo.store0 named_patch = Ret p' /\
    lastHasErrors p' = true /\
    GetBucket (db p') patchBucket = Some bucket /\
    GetBucket bucket "u9" = Some (record_of named_patch).
Proof.
  destruct (C4_persist_policy Demo.store0 named_patch)
    as (_ & _ & Hrun & _).
  destruct (Hrun eq_refl) as (p' & Hp & _ & _ & Hflag & Hstore & _).
  destruct Hstore as (bucket & Hb & Hpb).
  { intros [[v Hv]|[Hv|[v Hv]]]; vm_compute in Hv; discriminate Hv. }
  exists p', bucket. split; [exact Hp|]. split; [exact Hflag|].
  split; [exact Hb|exact Hpb].
Defined.

(** C4 as stated fails on a patch without uuid: it is not skipped, and it is
    not persisted, bbolt refusing the empty bucket name; nor is a recovery
    run without uuid written after a patch that reported an error, though it
    is not skipped either. *)
Lemma C4_counterexample :
  (skipped Demo.store0 unnamed_patch = false /\
   exists p',
     persist Demo.store0 unnamed_patch = Ret p' /\
     GetBucket (db p') patchBucket = None) /\
  (snd (HasErrors named_patch) = true /\
   snd (HasErrors unnamed_recovery) = false /\
   skipped (Demo.after Demo.store0 [named_patch]) unnamed_recovery = false /\
   exists p2,
     persist (Demo.after Demo.store0 [named_patch]) unnamed_recovery = Ret p2 /\
     db p2 = db (Demo.after Demo.store0 [named_patch])).
Proof.
  split.
  - split; [reflexivity|]. eexists. split; compute_eq.
  - split; [reflexivity|]. split; [reflexivity|]. split; [reflexivity|].
    eexists. split; compute_eq.
Qed.

Lemma persist_first_error_only_witness :
  exists bucket pb,
    GetBucket (db (Demo.after Demo.store0 [two_errors])) patchBucket
    = Some bucket /\
    GetBucket bucket "e1" = Some pb /\
    Get pb patchErrKey = Some "disk full".
Proof.
  apply (persist_first_error_only Demo.store0 two_errors);
    [compute_eq|reflexivity].
Defined.

End MoreExamples.
